(** * Aurelis release script (scripts/release.py): model and properties

The script is a linear workflow over an outside world: it runs shell
commands, reads lines from standard input, prints, reads the clock and
reads and writes [CHANGELOG.md].  The embedding below is a small
exception-and-state monad over that world.  Every effect the script
performs is appended to a trace, so that "nothing happened before the
script stopped" is a statement about the trace and the world.

Conventions.
- Python [str] values are [string]s holding the bytes of their UTF-8
  form.  The whitespace removed by [str.strip] is the whitespace of
  [str.isspace], the characters above 127 included, each recognised by
  its bytes.
- A file holds bytes.  Reading it in text mode turns the line endings
  [\r\n] and [\r] into [\n]; writing in text mode turns [\n] into
  [os.linesep], the line feed on the POSIX system the script is written
  for.  The encoding is UTF-8 and texts are well encoded; symbolic links
  and permissions are not represented.
- The external tools (git, poetry, gh, which) are not code of this
  repository: the shell is a parameter [sh] of every definition. *)

From Stdlib Require Import Ascii ZArith Lia.
From stdpp Require Import gmap strings list pretty.

(** ** Text *)

Module Text.

Definition nl : string := String (ascii_of_nat 10) EmptyString.
Definition dquote : string := String (ascii_of_nat 34) EmptyString.
Definition cr : string := String (ascii_of_nat 13) EmptyString.

(** [s[:n]] and [s[n:]] for [0 <= n]. *)
Fixpoint take (n : nat) (s : string) : string :=
  match n, s with
  | S n', String a s' => String a (take n' s')
  | _, _ => EmptyString
  end.

Fixpoint drop (n : nat) (s : string) : string :=
  match n, s with
  | S n', String _ s' => drop n' s'
  | _, _ => s
  end.

(** [s.startswith(p)]. *)
Fixpoint startswith (p s : string) : bool :=
  match p, s with
  | EmptyString, _ => true
  | String a p', String b s' => Ascii.eqb a b && startswith p' s'
  | String _ _, EmptyString => false
  end.

(** The characters [str.isspace] accepts below 128:
    tab, line feed, vertical tab, form feed, carriage return,
    the separators 28..31 and the space. *)
Definition isspace (a : ascii) : bool :=
  let n := nat_of_ascii a in
  ((9 <=? n) && (n <=? 13)) || ((28 <=? n) && (n <=? 32)).

(** The characters [str.isspace] accepts from 128 on, by their UTF-8
    bytes.  On two bytes: U+0085 and U+00A0 ([C2 85], [C2 A0]). *)
Definition isspace2 (a b : ascii) : bool :=
  let m := nat_of_ascii a in
  let n := nat_of_ascii b in
  (m =? 194) && ((n =? 133) || (n =? 160)).

(** On three bytes: U+1680 ([E1 9A 80]), U+2000..U+200A
    ([E2 80 80] .. [E2 80 8A]), U+2028, U+2029, U+202F
    ([E2 80 A8], [E2 80 A9], [E2 80 AF]), U+205F ([E2 81 9F]) and
    U+3000 ([E3 80 80]). *)
Definition isspace3 (a b c : ascii) : bool :=
  let l := nat_of_ascii a in
  let m := nat_of_ascii b in
  let n := nat_of_ascii c in
  ((l =? 225) && (m =? 154) && (n =? 128)) ||
  ((l =? 226) && (m =? 128) &&
     (((128 <=? n) && (n <=? 138)) || (n =? 168) || (n =? 169) || (n =? 175))) ||
  ((l =? 226) && (m =? 129) && (n =? 159)) ||
  ((l =? 227) && (m =? 128) && (n =? 128)).

(** How many bytes the whitespace character at the start of [s] takes;
    [0] when [s] does not start with one. *)
Definition lead (s : string) : nat :=
  match s with
  | String a s1 =>
      if isspace a then 1
      else match s1 with
           | String b s2 =>
               if isspace2 a b then 2
               else match s2 with
                    | String c _ => if isspace3 a b c then 3 else 0
                    | EmptyString => 0
                    end
           | EmptyString => 0
           end
  | EmptyString => 0
  end.

(** [s.lstrip()]: the whitespace characters at the start go. *)
Fixpoint lstrip (s : string) : string :=
  match s with
  | String a s1 =>
      if isspace a then lstrip s1
      else match s1 with
           | String b s2 =>
               if isspace2 a b then lstrip s2
               else match s2 with
                    | String c s3 => if isspace3 a b c then lstrip s3 else s
                    | EmptyString => s
                    end
           | EmptyString => s
           end
  | EmptyString => EmptyString
  end.

(** What is left of a whitespace character [ws] followed by [rest]
    once trailing whitespace is gone: nothing when [rest] was all
    whitespace. *)
Definition keep_space (ws rest : string) : string :=
  match rest with
  | EmptyString => EmptyString
  | _ => ws +:+ rest
  end.

(** [s.rstrip()]: the whitespace characters at the end go.  The string
    is read character by character from the left; a character that is
    not whitespace is kept byte by byte. *)
Fixpoint rstrip (s : string) : string :=
  match s with
  | String a s1 =>
      if isspace a then keep_space (String a EmptyString) (rstrip s1)
      else match s1 with
           | String b s2 =>
               if isspace2 a b
               then keep_space (String a (String b EmptyString)) (rstrip s2)
               else match s2 with
                    | String c s3 =>
                        if isspace3 a b c
                        then keep_space (String a (String b (String c EmptyString)))
                                        (rstrip s3)
                        else String a (rstrip s1)
                    | EmptyString => String a (rstrip s1)
                    end
           | EmptyString => String a EmptyString
           end
  | EmptyString => EmptyString
  end.

(** [s.strip()]. *)
Definition strip (s : string) : string := rstrip (lstrip s).

(** The bytes of a character after its first, in UTF-8: [80] to [BF]. *)
Definition continuation (a : ascii) : bool :=
  let n := nat_of_ascii a in
  (128 <=? n) && (n <=? 191).

(** The visible ASCII characters, [!] to [~]. *)
Definition graphic (a : ascii) : bool :=
  let n := nat_of_ascii a in
  (33 <=? n) && (n <=? 126).

(** Text mode on reading ([open(p, "r")], [newline=None]): the line
    endings [\r\n] and [\r] come out as [\n]. *)
Definition is_cr (a : ascii) : bool := nat_of_ascii a =? 13.
Definition is_lf (a : ascii) : bool := nat_of_ascii a =? 10.

Fixpoint universal_newlines (s : string) : string :=
  match s with
  | String a s1 =>
      if is_cr a
      then nl +:+ match s1 with
                  | String b s2 =>
                      if is_lf b then universal_newlines s2 else universal_newlines s1
                  | EmptyString => EmptyString
                  end
      else String a (universal_newlines s1)
  | EmptyString => EmptyString
  end.

(** No carriage return in [s]. *)
Fixpoint no_cr (s : string) : bool :=
  match s with
  | String a s1 => negb (is_cr a) && no_cr s1
  | EmptyString => true
  end.

(** Text mode on writing ([open(p, "w")], [newline=None]): every [\n]
    goes out as the line separator [sep]. *)
Fixpoint to_linesep (sep s : string) : string :=
  match s with
  | String a s1 =>
      (if is_lf a then sep else String a EmptyString) +:+ to_linesep sep s1
  | EmptyString => EmptyString
  end.

(** [c.lower()] on one character; only [A..Z] move. *)
Definition lower_ascii (a : ascii) : ascii :=
  let n := nat_of_ascii a in
  if (65 <=? n) && (n <=? 90) then ascii_of_nat (n + 32) else a.

(** [s.lower()]. *)
Fixpoint lower (s : string) : string :=
  match s with
  | String a s' => String (lower_ascii a) (lower s')
  | EmptyString => EmptyString
  end.

(** Truthiness of a [str]: non-empty. *)
Definition truthy (s : string) : bool :=
  match s with EmptyString => false | String _ _ => true end.

(** One decimal digit. *)
Definition digit (n : nat) : string :=
  String (ascii_of_nat (48 + n mod 10)) EmptyString.

(** A number on two, resp. four, zero-padded decimal digits. *)
Definition pad2 (n : nat) : string := digit (n / 10) +:+ digit n.
Definition pad4 (n : nat) : string :=
  digit (n / 1000) +:+ digit (n / 100) +:+ digit (n / 10) +:+ digit n.

(** Reading a digit and a run of digits back. *)
Definition digit_val (a : ascii) : option nat :=
  let n := nat_of_ascii a in
  if (48 <=? n) && (n <=? 57) then Some (n - 48) else None.

Fixpoint number_from (acc : nat) (s : string) : option nat :=
  match s with
  | EmptyString => Some acc
  | String a s' =>
      match digit_val a with
      | Some d => number_from (10 * acc + d) s'
      | None => None
      end
  end.

Definition number (s : string) : option nat :=
  match s with EmptyString => None | _ => number_from 0 s end.

End Text.

(** ** The regular expression of [update_changelog]

[re.search(r"# Changelog.*?\n\n", content, re.DOTALL)]: Python's
matcher tries the start positions from left to right; at one
position it reads the literal title, then lets the lazy [.*?] (any
character, line feeds too under [DOTALL]) take as few characters as
possible before the literal blank line. *)

Module Re.
  Import Text.

Definition title : string := "# Changelog".
Definition blank : string := nl +:+ nl.

(** [.*?lit] from the start of [s]: how many characters the match
    takes, [lit] included. *)
Fixpoint lazy_then (lit s : string) : option nat :=
  if startswith lit s then Some (String.length lit)
  else match s with
       | EmptyString => None
       | String _ s' => S <$> lazy_then lit s'
       end.

(** The whole pattern anchored at the start of [s]: the end offset. *)
Definition match_here (s : string) : option nat :=
  if startswith title s
  then (λ k, String.length title + k) <$>
         lazy_then blank (drop (String.length title) s)
  else None.

(** [re.search]: the leftmost start at which the pattern matches,
    as [(m.start(), m.end())]. *)
Fixpoint search (s : string) : option (nat * nat) :=
  match match_here s with
  | Some e => Some (0, e)
  | None =>
      match s with
      | EmptyString => None
      | String _ s' => (λ be, (S be.1, S be.2)) <$> search s'
      end
  end.

End Re.

(** ** The outside world *)

Module World.

(** A directory entry: a regular file with the bytes it holds, or a
    directory. *)
Inductive node :=
| File (content : string)
| Dir.

(** [os.linesep]: the script runs on a POSIX system (it looks for [gh]
    with [which]). *)
Definition linesep : string := Text.nl.

(** The date part of a [datetime]. *)
Record datetime := { year : nat; month : nat; day : nat }.

(** What [subprocess.run(..., capture_output=True, text=True)] returns,
    as far as the script reads it. *)
Record CompletedProcess := { returncode : Z; stdout : string }.

(** Everything a child process can see and change: the working
    directory's entries, what is left on standard input, the clock, and
    the state [E] of the tools themselves (repository, remote, project
    version). *)
Record Env (E : Type) := {
  files : gmap string node;
  stdin : list string;
  clock : datetime;
  ext : E
}.
Arguments files {E} _.
Arguments stdin {E} _.
Arguments clock {E} _.
Arguments ext {E} _.

(** The shell: a command line, run in an environment, gives a completed
    process and the environment it leaves behind. *)
Definition Shell (E : Type) : Type := string → Env E → CompletedProcess * Env E.

(** The script's own effects, in program order. *)
Inductive event :=
| EvRun (cmd : string) (check : bool) (rc : Z)
| EvPrint (s : string)
| EvInput (prompt : string) (answer : option string)
| EvWrite (path content : string).

Global Instance event_eq_dec : EqDecision event.
Proof. solve_decision. Defined.

Record world (E : Type) := { env : Env E; trace : list event }.
Arguments env {E} _.
Arguments trace {E} _.

(** The argument of [sys.exit]: a message (printed, status 1) or a status. *)
Inductive exit_arg :=
| ExitMessage (msg : string)
| ExitStatus (n : nat).

(** The exceptions of the model, none of which the script catches: its
    exits, the failure of a checked command, the end of standard input,
    and a changelog that cannot be opened because it is missing or is a
    directory. *)
Inductive exn :=
| SystemExit (a : exit_arg)
| CalledProcessError (rc : Z) (cmd : string)
| EOFError
| FileNotFoundError (path : string)
| IsADirectoryError (path : string).

Inductive outcome (A : Type) :=
| Returned (a : A)
| Raised (e : exn).
Arguments Returned {A} _.
Arguments Raised {A} _.

(** A Python computation: from a world to an outcome and a world. *)
Definition Py (E A : Type) : Type := world E → outcome A * world E.

Definition ret {E A} (a : A) : Py E A := λ w, (Returned a, w).

Definition bind {E A B} (m : Py E A) (k : A → Py E B) : Py E B :=
  λ w, match m w with
       | (Returned a, w') => k a w'
       | (Raised e, w') => (Raised e, w')
       end.

Definition raise {E A} (e : exn) : Py E A := λ w, (Raised e, w).

Definition record {E} (ev : event) (w : world E) : world E :=
  {| env := env w; trace := trace w ++ [ev] |}.

Definition with_env {E} (e : Env E) (w : world E) : world E :=
  {| env := e; trace := trace w |}.

(** A process starts with nothing done yet. *)
Definition start {E} (e : Env E) : world E := {| env := e; trace := [] |}.

End World.

Declare Scope py_scope.
Delimit Scope py_scope with py.
Notation "x <~ m ;; k" := (World.bind m (λ x, k))
  (at level 100, m at next level, k at level 200, right associativity) : py_scope.
Notation "m ;;; k" := (World.bind m (λ _, k))
  (at level 100, k at level 200, right associativity) : py_scope.

(** ** The script *)

Module Release.
  Import Text World.
  Local Open Scope py_scope.

(** The command line as [argparse] reads it: the positional [level] and
    whether [--skip-checks] was given.  Command lines that [argparse]
    answers by itself without running anything of the script ([-h], a
    missing or a surplus argument) are not represented. *)
Record cmdline := { arg_level : string; flag_skip_checks : bool }.

(** The parsed arguments ([args.level], [args.skip_checks]). *)
Record Namespace := { level : string; skip_checks : bool }.

Definition levels : list string := ["patch"; "minor"; "major"].

Definition changelog_path : string := "CHANGELOG.md".

Definition default_changelog : string :=
  "# Changelog" +:+ nl +:+ nl +:+
  "All notable changes to this project will be documented in this file." +:+ nl +:+ nl.

Definition new_section (version today : string) : string :=
  "## [" +:+ version +:+ "] - " +:+ today +:+ nl +:+ nl +:+
  "### Added" +:+ nl +:+ "- " +:+ nl +:+ nl +:+
  "### Changed" +:+ nl +:+ "- " +:+ nl +:+ nl +:+
  "### Fixed" +:+ nl +:+ "- " +:+ nl +:+ nl.

(** [d.strftime("%Y-%m-%d")]. *)
Definition strftime_Ymd (d : datetime) : string :=
  pad4 (year d) +:+ "-" +:+ pad2 (month d) +:+ "-" +:+ pad2 (day d).

Definition push_prompt : string := "Do you want to push changes to GitHub? (y/n): ".
Definition release_prompt : string := "Do you want to create a GitHub release? (y/n): ".
Definition edit_prompt : string := "Press Enter after updating the CHANGELOG.md...".

Definition root_error : string :=
  "Error: Please run this script from the project root directory".
Definition dirty_error : string :=
  "Error: Git working directory is not clean. Please commit or stash changes first.".
Definition level_error (level : string) : string :=
  "Error: Invalid version level '" +:+ level +:+ "'. Use 'patch', 'minor', or 'major'".
Definition changelog_warning : string := "⚠ Could not update CHANGELOG.md automatically".

Definition release_cmd (version : string) : string :=
  "gh release create v" +:+ version +:+ " --title " +:+ dquote +:+ "Aurelis " +:+
  version +:+ dquote +:+ " --notes-file -".

Definition banner : string := "=== Aurelis Release Process ===".
Definition git_status : string := "git status --porcelain".
Definition poetry_short : string := "poetry version --short".

Definition manual_release_url (version : string) : string :=
  "  https://github.com/kanopusdev/aurelis/releases/new?tag=v" +:+ version.

Section WithShell.
  Context {E : Type} (sh : Shell E).

(** *** Primitives *)

Definition sys_exit {A} (msg : string) : Py E A :=
  raise (SystemExit (ExitMessage msg)).

Definition print (s : string) : Py E unit :=
  λ w, (Returned tt, record (EvPrint s) w).

(** [input(prompt)]: the next line of standard input, [EOFError] when
    there is none. *)
Definition input (prompt : string) : Py E string :=
  λ w, match stdin (env w) with
       | [] => (Raised EOFError, record (EvInput prompt None) w)
       | line :: rest =>
           (Returned line,
            record (EvInput prompt (Some line))
              (with_env {| files := files (env w); stdin := rest;
                           clock := clock (env w); ext := ext (env w) |} w))
       end.

(** [os.path.exists(p)], [Path(p).exists()]. *)
Definition path_exists (p : string) : Py E bool :=
  λ w, (Returned (bool_decide (is_Some (files (env w) !! p))), w).

(** [with open(p, "r") as f: f.read()]: the file's bytes as text. *)
Definition read_text (p : string) : Py E string :=
  λ w, match files (env w) !! p with
       | Some (File c) => (Returned (universal_newlines c), w)
       | Some Dir => (Raised (IsADirectoryError p), w)
       | None => (Raised (FileNotFoundError p), w)
       end.

(** [with open(p, "w") as f: f.write(s)]: the file is created or
    replaced, and holds the text with its line feeds as [os.linesep]. *)
Definition write_text (p s : string) : Py E unit :=
  λ w, match files (env w) !! p with
       | Some Dir => (Raised (IsADirectoryError p), w)
       | _ =>
           (Returned tt,
            record (EvWrite p s)
              (with_env {| files := <[p := File (to_linesep linesep s)]> (files (env w));
                           stdin := stdin (env w);
                           clock := clock (env w); ext := ext (env w) |} w))
       end.

(** [datetime.now()]. *)
Definition datetime_now : Py E datetime :=
  λ w, (Returned (clock (env w)), w).

(** *** [run_command] *)

Definition run_command (cmd : string) (check : bool) : Py E CompletedProcess :=
  λ w, let '(cp, e') := sh cmd (env w) in
       let w' := record (EvRun cmd check (returncode cp)) (with_env e' w) in
       if check && negb (returncode cp =? 0)%Z
       then (Raised (CalledProcessError (returncode cp) cmd), w')
       else (Returned cp, w').

(** *** The module-level check of the working directory *)

Definition module_check : Py E unit :=
  a <~ path_exists "aurelis";;
  p <~ path_exists "pyproject.toml";;
  if negb a || negb p then sys_exit root_error else ret tt.

(** *** [check_git_clean] *)

Definition check_git_clean : Py E unit :=
  result <~ run_command git_status true;;
  if truthy (strip (stdout result))
  then sys_exit dirty_error
  else print "✓ Git working directory is clean".

(** *** [get_current_version] *)

Definition get_current_version : Py E string :=
  result <~ run_command poetry_short true;;
  ret (strip (stdout result)).

(** *** [bump_version] *)

Definition bump_version (level : string) : Py E string :=
  if negb (bool_decide (level ∈ levels))
  then sys_exit (level_error level)
  else
    current_version <~ get_current_version;;
    result <~ run_command ("poetry version " +:+ level) true;;
    new_version <~ get_current_version;;
    print ("✓ Bumped version from " +:+ current_version +:+ " to " +:+
           new_version +:+ " (" +:+ level +:+ ")");;;
    ret new_version.

(** *** [update_changelog] *)

Definition update_changelog (version : string) : Py E bool :=
  present <~ path_exists changelog_path;;
  (if negb present then write_text changelog_path default_changelog else ret tt);;;
  content <~ read_text changelog_path;;
  now <~ datetime_now;;
  let today := strftime_Ymd now in
  let section := new_section version today in
  match Re.search content with
  | Some header_match =>
      let insert_position := header_match.2 in
      let new_content :=
        take insert_position content +:+ section +:+ drop insert_position content in
      write_text changelog_path new_content;;;
      print ("✓ Updated CHANGELOG.md with version " +:+ version);;;
      print "  Please edit the changelog to add release notes";;;
      ret true
  | None =>
      print changelog_warning;;;
      ret false
  end.

(** *** [create_git_tag] *)

Definition create_git_tag (version : string) : Py E unit :=
  run_command "git add pyproject.toml CHANGELOG.md" true;;;
  run_command ("git commit -m " +:+ dquote +:+ "Release version " +:+ version +:+ dquote) true;;;
  run_command ("git tag -a v" +:+ version +:+ " -m " +:+ dquote +:+ "Version " +:+
               version +:+ dquote) true;;;
  print ("✓ Created git commit and tag v" +:+ version).

(** *** [push_to_github] *)

Definition push_to_github : Py E unit :=
  confirm <~ input push_prompt;;
  if negb (bool_decide (lower confirm = "y"))
  then print "Skipping push to GitHub"
  else
    run_command "git push" true;;;
    run_command "git push --tags" true;;;
    print "✓ Pushed changes and tags to GitHub".

(** *** [create_github_release] *)

Definition create_github_release (version : string) : Py E unit :=
  has_gh <~ run_command "which gh" false;;
  if negb (returncode has_gh =? 0)%Z
  then
    print "⚠ GitHub CLI not found, skipping release creation";;;
    print "  To create a release manually, go to:";;;
    print (manual_release_url version)
  else
    confirm <~ input release_prompt;;
    if negb (bool_decide (lower confirm = "y"))
    then
      print "Skipping GitHub release creation";;;
      print "  To create a release manually, go to:";;;
      print (manual_release_url version)
    else
      print "Creating GitHub release...";;;
      print "Opening editor for release notes...";;;
      run_command (release_cmd version) true;;;
      ret tt.

(** *** [main] *)

(** [parser.parse_args()]: a [level] outside [choices] makes [argparse]
    report the error and exit with status 2. *)
Definition parse_args (argv : cmdline) : Py E Namespace :=
  if bool_decide (arg_level argv ∈ levels)
  then ret {| level := arg_level argv; skip_checks := flag_skip_checks argv |}
  else raise (SystemExit (ExitStatus 2)).

Definition main (argv : cmdline) : Py E unit :=
  args <~ parse_args argv;;
  print banner;;;
  (if negb (skip_checks args) then check_git_clean else ret tt);;;
  new_version <~ bump_version (level args);;
  update_changelog new_version;;;
  input edit_prompt;;;
  create_git_tag new_version;;;
  push_to_github;;;
  create_github_release new_version;;;
  print (nl +:+ "✅ Release " +:+ new_version +:+ " completed!");;;
  print "PyPI package will be published automatically when the GitHub release is created.";;;
  print "You can also manually trigger the workflow from the GitHub Actions tab.".

(** The script run as a program: the module body, then [main]. *)
Definition script (argv : cmdline) : Py E unit :=
  module_check;;;
  main argv.

End WithShell.

End Release.

(** ** Semantic versions and the version tool *)

Module Semver.
Import Text.

Record semver := { major : nat; minor : nat; patch : nat }.

(** The decimal form of a number, most significant digit first. *)
Fixpoint show_nat_from (fuel n : nat) (acc : string) : string :=
  match fuel with
  | 0 => acc
  | S fuel' =>
      let acc' := digit n +:+ acc in
      if n <? 10 then acc' else show_nat_from fuel' (n / 10) acc'
  end.

Definition show_nat (n : nat) : string := show_nat_from (S n) n EmptyString.

(** [major.minor.patch]. *)
Definition show (v : semver) : string :=
  show_nat (major v) +:+ "." +:+ show_nat (minor v) +:+ "." +:+ show_nat (patch v).

(** Precedence of versions: by major, then minor, then patch number. *)
Definition lt (a b : semver) : Prop :=
  major a < major b ∨
  (major a = major b ∧ (minor a < minor b ∨ (minor a = minor b ∧ patch a < patch b))).

(** Modelled from the spec: the version tool is not code of this
    repository.  The spec's glossary has a bump level "indicating which
    semantic-version component to increment"; the components to its right
    start again at zero, as semantic versioning has it. *)
Definition bump (level : string) (v : semver) : semver :=
  if bool_decide (level = "patch")
  then {| major := major v; minor := minor v; patch := S (patch v) |}
  else if bool_decide (level = "minor")
  then {| major := major v; minor := S (minor v); patch := 0 |}
  else if bool_decide (level = "major")
  then {| major := S (major v); minor := 0; patch := 0 |}
  else v.

(** Modelled from the spec: what the script relies on from the version
    tool ("a semantic version string (major.minor.patch), owned and mutated
    by the external dependency-management tool, read back after
    mutation").  [version_of] reads the project's version off the tools'
    state.  Asking for the short version succeeds, prints the version
    (surrounding whitespace apart) and changes nothing; asking for a bump
    at one of the three levels succeeds and bumps the version. *)
Definition poetry_contract {E : Type} (sh : World.Shell E) (version_of : E → semver) : Prop :=
  (∀ e, ∃ out,
      sh "poetry version --short" e = ({| World.returncode := 0; World.stdout := out |}, e) ∧
      strip out = show (version_of (World.ext e))) ∧
  (∀ level e, level ∈ ["patch"; "minor"; "major"] →
      ∃ out e',
        sh ("poetry version " +:+ level) e = ({| World.returncode := 0; World.stdout := out |}, e') ∧
        version_of (World.ext e') = bump level (version_of (World.ext e))).

End Semver.

(** ** The output of [git status --porcelain]

    git is not code of this repository; what it prints is the input of
    [check_git_clean].  In the short format that [--porcelain] fixes
    (git-status(1)) every path that differs has one line: two status
    characters [XY], not both blank, a space, the path, a line feed.  For
    a clean tree nothing is printed. *)

Module Porcelain.
Import Text.

(** A status character: blank, or a visible character ([M], [A], [D],
    [R], [C], [U], [T], [?], [!], ...). *)
Definition status_char (a : ascii) : bool :=
  (nat_of_ascii a =? 32) || graphic a.

(** The line of one path. *)
Definition line (x y : ascii) (path : string) : string :=
  String x (String y (" " +:+ path +:+ nl)).

Inductive output : string → Prop :=
| output_clean : output EmptyString
| output_line (x y : ascii) (path rest : string) :
    status_char x = true → status_char y = true →
    graphic x || graphic y = true →
    output rest →
    output (line x y path +:+ rest).

(** The working tree is dirty: the status output is not empty. *)
Definition dirty (out : string) : Prop := output out ∧ out ≠ EmptyString.

End Porcelain.

(** ** A reference environment

    A small concrete world on which the model runs: a project at some
    version, a working tree whose status output is given, possibly with
    the GitHub CLI installed, and a list of command lines that fail. *)

Module Ref.
Import Text World.

Record Repo := {
  version : Semver.semver;
  porcelain : string;
  has_gh : bool;
  failing : list string
}.

Definition completed (rc : Z) (out : string) : CompletedProcess :=
  {| returncode := rc; stdout := out |}.

Definition set_version (v : Semver.semver) (e : Env Repo) : Env Repo :=
  {| files := files e; stdin := stdin e; clock := clock e;
     ext := {| version := v; porcelain := porcelain (ext e);
               has_gh := has_gh (ext e); failing := failing (ext e) |} |}.

(** The tools when they work. *)
Definition tools : Shell Repo := λ cmd e,
  if bool_decide (cmd = "git status --porcelain")
  then (completed 0 (porcelain (ext e)), e)
  else if bool_decide (cmd = "poetry version --short")
  then (completed 0 (Semver.show (version (ext e)) +:+ nl), e)
  else if bool_decide (cmd ∈ ["poetry version patch"; "poetry version minor"; "poetry version major"])
  then (completed 0 EmptyString,
        set_version (Semver.bump (drop 15 cmd) (version (ext e))) e)
  else if bool_decide (cmd = "which gh")
  then (if has_gh (ext e) then completed 0 ("/usr/bin/gh" +:+ nl) else completed 1 EmptyString, e)
  else (completed 0 EmptyString, e).

(** The tools, the command lines listed as failing exiting with status 1. *)
Definition shell : Shell Repo := λ cmd e,
  if bool_decide (cmd ∈ failing (ext e)) then (completed 1 EmptyString, e)
  else tools cmd e.

Definition repo0 : Repo :=
  {| version := {| Semver.major := 1; Semver.minor := 0; Semver.patch := 0 |};
     porcelain := EmptyString; has_gh := true; failing := [] |}.

Definition today0 : datetime := {| year := 2026; month := 3; day := 7 |}.

(** A clean project root without a changelog; the operator presses Enter,
    then declines both prompts. *)
Definition env0 : Env Repo :=
  {| files := <["aurelis" := Dir]> (<["pyproject.toml" := File "[tool.poetry]"]> ∅);
     stdin := [EmptyString; "n"; "n"];
     clock := today0;
     ext := repo0 |}.

Definition with_files (fs : gmap string node) (e : Env Repo) : Env Repo :=
  {| files := fs; stdin := stdin e; clock := clock e; ext := ext e |}.

Definition with_stdin (lines : list string) (e : Env Repo) : Env Repo :=
  {| files := files e; stdin := lines; clock := clock e; ext := ext e |}.

Definition with_repo (r : Repo) (e : Env Repo) : Env Repo :=
  {| files := files e; stdin := stdin e; clock := clock e; ext := r |}.

(** The same project with a modified file in the working tree. *)
Definition env_dirty : Env Repo :=
  with_repo {| version := version repo0; porcelain := " M README.md" +:+ nl;
               has_gh := true; failing := [] |} env0.


(** A directory that is not the project root. *)
Definition env_elsewhere : Env Repo :=
  with_files (<["README.md" := File "notes"]> ∅) env0.

(** The project when [git commit] fails. *)
Definition commit_cmd : string :=
  "git commit -m " +:+ dquote +:+ "Release version 1.1.0" +:+ dquote.


(** The operator presses Enter, answers [no] to the push prompt and [N] to
    the release prompt. *)
Definition env_declining : Env Repo := with_stdin [EmptyString; "no"; "N"] env0.

(** The project with a changelog from an earlier release. *)
Definition old_changelog : string :=
  "Notes" +:+ nl +:+ "# Changelog" +:+ nl +:+ "All releases." +:+ nl +:+ nl +:+
  "## [1.0.0] - 2025-01-01" +:+ nl +:+ nl +:+ "First." +:+ nl.

Definition env_with_changelog : Env Repo :=
  with_files (<["CHANGELOG.md" := File old_changelog]> (files env0)) env0.

(** The project with a changelog whose header lines end in a line feed
    and whose older entry has lines that end in carriage return and line
    feed. *)
Definition crlf_changelog : string :=
  "# Changelog" +:+ nl +:+ nl +:+
  "## [1.0.0] - 2025-01-01" +:+ cr +:+ nl +:+ cr +:+ nl +:+ "First." +:+ cr +:+ nl.

Definition env_crlf_changelog : Env Repo :=
  with_files (<["CHANGELOG.md" := File crlf_changelog]> (files env0)) env0.

(** The project with a changelog that lacks the title. *)
Definition env_untitled_changelog : Env Repo :=
  with_files (<["CHANGELOG.md" := File ("Release notes" +:+ nl +:+ nl +:+ "None yet." +:+ nl)]>
                (files env0)) env0.

(** Command lines. *)
Definition argv_patch : Release.cmdline :=
  {| Release.arg_level := "patch"; Release.flag_skip_checks := false |}.
Definition argv_patch_skip : Release.cmdline :=
  {| Release.arg_level := "patch"; Release.flag_skip_checks := true |}.
Definition argv_minor : Release.cmdline :=
  {| Release.arg_level := "minor"; Release.flag_skip_checks := false |}.
Definition argv_huge : Release.cmdline :=
  {| Release.arg_level := "huge"; Release.flag_skip_checks := false |}.

End Ref.

(** * Properties *)

(** ** The model at work *)

Module Runs.
Import Text World Release.

(** The command lines of a trace, in order. *)
Definition commands (t : list event) : list string :=
  omap (λ ev, match ev with EvRun cmd _ _ => Some cmd | _ => None end) t.

Example header_after_title :
  Re.search default_changelog = Some (0, 13).
Proof. reflexivity. Qed.

Example header_after_paragraph :
  Re.search ("x# Changelog" +:+ nl +:+ "Notes." +:+ nl +:+ nl +:+ "rest") = Some (1, 21).
Proof. reflexivity. Qed.

Example header_needs_blank_line :
  Re.search ("# Changelog" +:+ nl +:+ "Notes." +:+ nl) = None.
Proof. reflexivity. Qed.

Example strip_status_line : strip (" M README.md" +:+ nl) = "M README.md".
Proof. reflexivity. Qed.

(** A no-break space (U+00A0, bytes [C2 A0]) and an ideographic space
    (U+3000, bytes [E3 80 80]) are stripped too; a copyright sign (U+00A9,
    bytes [C2 A9]) is not. *)
Definition bytes (l : list nat) : string :=
  foldr (λ n s, String (ascii_of_nat n) s) EmptyString l.

Example strip_wide_spaces :
  strip (bytes [194; 160] +:+ "1.2.3©" +:+ bytes [227; 128; 128] +:+ nl) = "1.2.3©" ∧
  "©" = bytes [194; 169].
Proof. split; reflexivity. Qed.

(** A changelog with Windows line endings has its header found: the
    pattern is matched against the text read, not against the bytes. *)
Example header_in_crlf_file :
  Re.search ("# Changelog" +:+ cr +:+ nl +:+ cr +:+ nl +:+ "Notes." +:+ cr +:+ nl) = None ∧
  Re.search (universal_newlines
               ("# Changelog" +:+ cr +:+ nl +:+ cr +:+ nl +:+ "Notes." +:+ cr +:+ nl)) =
    Some (0, 13).
Proof. split; reflexivity. Qed.

Example read_line_endings :
  universal_newlines ("a" +:+ cr +:+ nl +:+ "b" +:+ cr +:+ "c" +:+ nl) =
  "a" +:+ nl +:+ "b" +:+ nl +:+ "c" +:+ nl.
Proof. reflexivity. Qed.

Example yes_any_case : lower "Y" = "y" ∧ lower "yes" ≠ "y" ∧ lower " y" ≠ "y".
Proof. repeat split; compute_done. Qed.

Example date_text : strftime_Ymd Ref.today0 = "2026-03-07".
Proof. reflexivity. Qed.

(** Both prompts declined: nothing after the tag but the probe for [gh]. *)
Example run_declined :
  commands (trace (script Ref.shell Ref.argv_minor (start Ref.env0)).2) =
  [ "git status --porcelain"; "poetry version --short"; "poetry version minor";
    "poetry version --short"; "git add pyproject.toml CHANGELOG.md";
    Ref.commit_cmd;
    "git tag -a v1.1.0 -m " +:+ dquote +:+ "Version 1.1.0" +:+ dquote;
    "which gh" ].
Proof. reflexivity. Qed.

(** Both prompts accepted. *)
Example run_accepted :
  commands (trace (script Ref.shell Ref.argv_minor
                     (start (Ref.with_stdin [EmptyString; "y"; "Y"] Ref.env0))).2) =
  [ "git status --porcelain"; "poetry version --short"; "poetry version minor";
    "poetry version --short"; "git add pyproject.toml CHANGELOG.md";
    Ref.commit_cmd;
    "git tag -a v1.1.0 -m " +:+ dquote +:+ "Version 1.1.0" +:+ dquote;
    "git push"; "git push --tags"; "which gh"; release_cmd "1.1.0" ].
Proof. reflexivity. Qed.

End Runs.

(** ** Text *)

Module TextFacts.
Import Text.

Lemma app_nil_l (s : string) : EmptyString +:+ s = s.
Proof. reflexivity. Qed.

Lemma app_cons (a : ascii) (s t : string) : String a s +:+ t = String a (s +:+ t).
Proof. reflexivity. Qed.

Lemma app_nil_r (s : string) : s +:+ EmptyString = s.
Proof. induction s as [|a s IH]; [reflexivity|]. rewrite app_cons. congruence. Qed.

Lemma app_assoc (s t u : string) : (s +:+ t) +:+ u = s +:+ t +:+ u.
Proof. induction s as [|a s IH]; [reflexivity|]. rewrite !app_cons. congruence. Qed.

Lemma length_app (s t : string) :
  String.length (s +:+ t) = String.length s + String.length t.
Proof. induction s as [|a s IH]; [reflexivity|]. rewrite app_cons. simpl. lia. Qed.

Lemma take_drop (n : nat) (s : string) : take n s +:+ drop n s = s.
Proof.
  revert s. induction n as [|n IH]; intros [|a s]; try reflexivity.
  simpl. rewrite app_cons. f_equal. apply IH.
Qed.

Lemma take_app_length (p r : string) : take (String.length p) (p +:+ r) = p.
Proof.
  induction p as [|a p IH]; [reflexivity|].
  rewrite app_cons. simpl. congruence.
Qed.

Lemma drop_app_length (p r : string) : drop (String.length p) (p +:+ r) = r.
Proof. induction p as [|a p IH]; [reflexivity|]. rewrite app_cons. exact IH. Qed.

Lemma length_take (n : nat) (s : string) :
  n ≤ String.length s → String.length (take n s) = n.
Proof.
  revert s. induction n as [|n IH]; intros [|a s] Hn; simpl in *; try lia.
  rewrite IH; lia.
Qed.

Lemma startswith_app (p r : string) : startswith p (p +:+ r) = true.
Proof.
  induction p as [|a p IH]; [reflexivity|].
  rewrite app_cons. simpl. rewrite Ascii.eqb_refl. exact IH.
Qed.

Lemma startswith_inv (p s : string) :
  startswith p s = true → ∃ r, s = p +:+ r.
Proof.
  revert s. induction p as [|a p IH]; intros s Hs.
  - exists s. reflexivity.
  - destruct s as [|b s]; [discriminate|]. simpl in Hs.
    apply andb_true_iff in Hs as [Hab Hs]. apply Ascii.eqb_eq in Hab as ->.
    destruct (IH _ Hs) as [r ->]. exists r. reflexivity.
Qed.

Lemma startswith_false (p s r : string) : startswith p s = false → s ≠ p +:+ r.
Proof. intros Hs ->. rewrite startswith_app in Hs. discriminate. Qed.

Lemma take_take_app (pos : nat) (s r : string) :
  pos ≤ String.length s → take pos (take pos s +:+ r) = take pos s.
Proof.
  intros Hp. rewrite <- (length_take pos s Hp) at 1. apply take_app_length.
Qed.

Lemma drop_take_app (pos : nat) (s r : string) :
  pos ≤ String.length s → drop pos (take pos s +:+ r) = r.
Proof.
  intros Hp. rewrite <- (length_take pos s Hp) at 1. apply drop_app_length.
Qed.

(** A byte is the character of its code. *)
Lemma ascii_of_code (a : ascii) (n : nat) : nat_of_ascii a = n → a = ascii_of_nat n.
Proof. intros <-. by rewrite ascii_nat_embedding. Qed.

(** *** Line endings *)

(** On a POSIX system text mode writes a text as it is. *)
Lemma to_linesep_posix (s : string) : to_linesep World.linesep s = s.
Proof.
  induction s as [|a s IH]; [reflexivity|]. cbn [to_linesep]. rewrite IH.
  unfold is_lf. destruct (Nat.eqb_spec (nat_of_ascii a) 10) as [Ha|Ha]; [|reflexivity].
  by rewrite (ascii_of_code _ _ Ha).
Qed.

Lemma no_cr_app (s t : string) : no_cr (s +:+ t) = no_cr s && no_cr t.
Proof.
  induction s as [|a s IH]; [reflexivity|]. rewrite app_cons. cbn [no_cr].
  by rewrite IH, andb_assoc.
Qed.

(** A text without carriage returns is read as it is. *)
Lemma universal_newlines_id (s : string) : no_cr s = true → universal_newlines s = s.
Proof.
  induction s as [|a s IH]; [reflexivity|]. cbn [no_cr universal_newlines].
  intros [Ha Hs]%andb_true_iff. apply negb_true_iff in Ha. rewrite Ha. by rewrite IH.
Qed.

Lemma universal_newlines_app (p t : string) :
  no_cr p = true → universal_newlines (p +:+ t) = p +:+ universal_newlines t.
Proof.
  induction p as [|a p IH]; [reflexivity|]. rewrite !app_cons.
  cbn [no_cr universal_newlines].
  intros [Ha Hp]%andb_true_iff. apply negb_true_iff in Ha. rewrite Ha. by rewrite IH.
Qed.

(** What is read in text mode holds no carriage return. *)
Lemma universal_newlines_no_cr (s : string) : no_cr (universal_newlines s) = true.
Proof.
  assert (∀ n s, String.length s ≤ n → no_cr (universal_newlines s) = true) as H.
  { clear s. induction n as [|n IH]; intros [|a s] Hn; simpl in Hn; try lia; try reflexivity.
    cbn [universal_newlines]. destruct (is_cr a) eqn:Ha.
    - unfold nl. rewrite app_cons, app_nil_l. cbn [no_cr]. 
      change (is_cr (ascii_of_nat 10)) with false. cbn [negb andb].
      destruct s as [|b s]; [reflexivity|]. simpl in Hn.
      destruct (is_lf b); apply IH; simpl; lia.
    - cbn [no_cr]. rewrite Ha. apply IH. lia. }
  by apply (H (String.length s)).
Qed.

(** *** Whitespace *)

Ltac byte_cases :=
  repeat (match goal with
          | |- context [Nat.leb ?x ?y] => destruct (Nat.leb_spec x y)
          | |- context [Nat.eqb ?x ?y] => destruct (Nat.eqb_spec x y)
          end; cbn [andb orb negb]; try lia);
  try done.

(** A visible character starts no whitespace character. *)
Lemma graphic_lead (a : ascii) (s : string) : graphic a = true → lead (String a s) = 0.
Proof.
  unfold graphic. intros [H1 H2]%andb_true_iff.
  apply Nat.leb_le in H1. apply Nat.leb_le in H2.
  unfold lead, isspace, isspace2, isspace3.
  destruct s as [|b [|c s]]; generalize dependent (nat_of_ascii a); intros n ? ?; byte_cases.
Qed.

Lemma lstrip_stop (s : string) : lead s = 0 → lstrip s = s.
Proof.
  destruct s as [|a [|b [|c s]]]; cbn [lead lstrip]; try done.
  all: repeat (case_match; try done).
Qed.

Lemma lstrip_skip (s : string) : lead s ≠ 0 → lstrip s = lstrip (drop (lead s) s).
Proof.
  destruct s as [|a [|b [|c s]]]; cbn [lead lstrip]; try done.
  all: repeat (case_match; try done).
Qed.

Lemma rstrip_keep (a : ascii) (s : string) :
  lead (String a s) = 0 → rstrip (String a s) = String a (rstrip s).
Proof.
  destruct s as [|b [|c s]]; cbn [lead rstrip]; try done.
  all: repeat (case_match; try done).
Qed.

Lemma rstrip_skip (s : string) :
  lead s ≠ 0 → rstrip s = keep_space (take (lead s) s) (rstrip (drop (lead s) s)).
Proof.
  destruct s as [|a [|b [|c s]]]; cbn [lead rstrip]; try done.
  all: repeat (case_match; try done).
Qed.

Lemma continuation_lead (a : ascii) (s : string) :
  continuation a = true → lead (String a s) = 0.
Proof.
  unfold continuation. intros [H1 H2]%andb_true_iff.
  apply Nat.leb_le in H1. apply Nat.leb_le in H2.
  unfold lead, isspace, isspace2, isspace3.
  destruct s as [|b [|c s]]; generalize dependent (nat_of_ascii a); intros n ? ?; byte_cases.
Qed.

Lemma isspace2_continuation (a b : ascii) : isspace2 a b = true → continuation b = true.
Proof. unfold isspace2, continuation. byte_cases. Qed.

Lemma isspace3_continuation (a b c : ascii) :
  isspace3 a b c = true → continuation b = true ∧ continuation c = true.
Proof. unfold isspace3, continuation. byte_cases. Qed.

(** The shapes of a string that starts with a whitespace character. *)
Lemma lead_cases (s : string) :
  match lead s with
  | 0 => True
  | 1 => ∃ a r, s = String a r ∧ isspace a = true
  | 2 => ∃ a b r, s = String a (String b r) ∧ isspace2 a b = true
  | 3 => ∃ a b c r, s = String a (String b (String c r)) ∧ isspace3 a b c = true
  | _ => False
  end.
Proof.
  destruct s as [|a [|b [|c s]]]; cbn [lead]; try done.
  all: repeat (case_match; try done); eauto 10.
Qed.

Lemma lead_length (s : string) : lead s ≤ String.length s.
Proof.
  destruct s as [|a [|b [|c s]]]; cbn [lead]; simpl; try lia.
  all: repeat (case_match; try lia).
Qed.

(** Whether a string starts with a whitespace character, and with
    which, is decided by the bytes of that character. *)
Lemma lead_take (s r : string) : lead s ≠ 0 → lead (take (lead s) s +:+ r) = lead s.
Proof.
  destruct s as [|a [|b [|c s]]]; cbn [lead]; try done.
  all: repeat (case_match; try done); intros _; cbn [take]; rewrite ?app_cons, ?app_nil_l;
    cbn [lead]; by repeat (case_match; simplify_eq; try done).
Qed.

Lemma lead_cons_prefix (a : ascii) (p t : string) :
  lead (String a (p +:+ t)) = 0 → lead (String a p) = 0.
Proof.
  destruct p as [|b [|c p]]; rewrite ?app_cons, ?app_nil_l.
  - destruct t as [|b [|c t]]; cbn [lead]; by repeat (case_match; try done).
  - destruct t as [|c t]; cbn [lead]; by repeat (case_match; try done).
  - cbn [lead]; by repeat (case_match; try done).
Qed.

Lemma length_drop_lead (s : string) :
  lead s ≠ 0 → String.length (drop (lead s) s) < String.length s.
Proof.
  destruct s as [|a [|b [|c s]]]; cbn [lead]; try done.
  all: repeat (case_match; try done); intros _; simpl; lia.
Qed.

(** What [rstrip] returns is a prefix of what it was given. *)
Lemma rstrip_prefix (s : string) : ∃ t, s = rstrip s +:+ t.
Proof.
  assert (∀ n s, String.length s ≤ n → ∃ t, s = rstrip s +:+ t) as H.
  { clear s. induction n as [|n IH]; intros [|a s] Hn; simpl in Hn; try lia;
      try (by exists EmptyString).
    destruct (lead (String a s)) as [|k] eqn:Hl.
    - rewrite rstrip_keep by done. destruct (IH s) as [t Ht]; [lia|].
      exists t. rewrite app_cons. by rewrite <- Ht.
    - rewrite rstrip_skip by lia.
      pose proof (length_drop_lead (String a s)) as Hd.
      destruct (IH (drop (lead (String a s)) (String a s))) as [t Ht]; [simpl in *; lia|].
      unfold keep_space. destruct (rstrip (drop _ _)) as [|c r] eqn:Hr.
      + by exists (String a s).
      + exists t. rewrite app_assoc, <- Ht. by rewrite take_drop. }
  by apply (H (String.length s)).
Qed.

Lemma lead_lstrip (s : string) : lead (lstrip s) = 0.
Proof.
  assert (∀ n s, String.length s ≤ n → lead (lstrip s) = 0) as H.
  { clear s. induction n as [|n IH]; intros s Hn.
    - destruct s; [done | simpl in Hn; lia].
    - destruct (lead s) as [|k] eqn:Hl; [by rewrite lstrip_stop|].
      rewrite lstrip_skip by lia. apply IH.
      pose proof (length_drop_lead s). lia. }
  by apply (H (String.length s)).
Qed.

Lemma lead_rstrip (s : string) : lead s = 0 → lead (rstrip s) = 0.
Proof.
  destruct s as [|a s]; [done|]. intros Hl. rewrite rstrip_keep by done.
  destruct (rstrip_prefix s) as [t Ht]. rewrite Ht in Hl.
  by apply lead_cons_prefix in Hl.
Qed.

Lemma rstrip_idem (s : string) : rstrip (rstrip s) = rstrip s.
Proof.
  assert (∀ n s, String.length s ≤ n → rstrip (rstrip s) = rstrip s) as H.
  { clear s. induction n as [|n IH]; intros [|a s] Hn; simpl in Hn; try lia; try done.
    destruct (lead (String a s)) as [|k] eqn:Hl.
    - pose proof (lead_rstrip _ Hl) as Hl'.
      rewrite rstrip_keep in * by done. rewrite rstrip_keep by done.
      rewrite IH; [done | lia].
    - rewrite (rstrip_skip (String a s)) by lia.
      pose proof (length_drop_lead (String a s)) as Hd.
      pose proof (lead_length (String a s)) as Hlen.
      destruct (rstrip (drop _ _)) as [|c r] eqn:Hr; [done|]. unfold keep_space.
      assert (lead (String a s) ≠ 0) as Hne by lia.
      pose proof (lead_take (String a s) (String c r) Hne) as Hlt.
      rewrite rstrip_skip by (by rewrite Hlt). rewrite Hlt.
      rewrite take_take_app, drop_take_app by done. unfold keep_space.
      rewrite <- Hr, IH by (simpl in *; lia). by rewrite Hr. }
  by apply (H (String.length s)).
Qed.

End TextFacts.

(** ** The header pattern

    [Re.search] against the language of the pattern: a match of
    [# Changelog.*?\n\n] in [s] from offset [b] to offset [e] is a slice
    [s[b:e]] made of the title, any text, and a blank line. *)

Module ReFacts.
Import Text TextFacts Re.

(** [lit] occurs in [s] at offset [i]. *)
Definition occurs (lit s : string) (i : nat) : Prop :=
  ∃ pre suf, s = pre +:+ lit +:+ suf ∧ String.length pre = i.

(** [s[b:e]] is in the language of the pattern. *)
Definition is_match (s : string) (b e : nat) : Prop :=
  ∃ pre mid suf,
    s = pre +:+ title +:+ mid +:+ blank +:+ suf ∧
    String.length pre = b ∧
    e = b + String.length title + String.length mid + String.length blank.

(** What [re.search] returns among the matches: the leftmost start and,
    the quantifier being lazy, the nearest end from there. *)
Definition first_match (s : string) (b e : nat) : Prop :=
  is_match s b e ∧ ∀ b' e', is_match s b' e' → b < b' ∨ (b = b' ∧ e ≤ e').

Lemma occurs_cons (lit : string) (a : ascii) (s : string) (i : nat) :
  occurs lit (String a s) (S i) ↔ occurs lit s i.
Proof.
  split.
  - intros (pre & suf & Hs & Hl). destruct pre as [|c pre]; [discriminate|].
    rewrite app_cons in Hs. injection Hs as -> ->. injection Hl as Hl.
    by exists pre, suf.
  - intros (pre & suf & -> & Hl). exists (String a pre), suf.
    split; [reflexivity | simpl; congruence].
Qed.

Lemma occurs_0 (lit s : string) : occurs lit s 0 ↔ startswith lit s = true.
Proof.
  split.
  - intros (pre & suf & -> & Hl). destruct pre; [|discriminate].
    rewrite app_nil_l. apply startswith_app.
  - intros [r ->]%startswith_inv. by exists EmptyString, r.
Qed.

Lemma lazy_then_Some (lit s : string) (k : nat) :
  lazy_then lit s = Some k →
  ∃ i, occurs lit s i ∧ k = i + String.length lit ∧ ∀ j, occurs lit s j → i ≤ j.
Proof.
  revert k. induction s as [|a s IH]; intros k; simpl.
  - destruct (startswith lit EmptyString) eqn:Hp; [|discriminate].
    intros [= <-]. exists 0. split; [by apply occurs_0|]. split; [done | lia].
  - destruct (startswith lit (String a s)) eqn:Hp.
    + intros [= <-]. exists 0. split; [by apply occurs_0|]. split; [done | lia].
    + destruct (lazy_then lit s) as [k'|]; [|discriminate].
      intros [= <-]. destruct (IH k' eq_refl) as (i & Hi & -> & Hmin).
      exists (S i). split; [by apply occurs_cons|]. split; [done|].
      intros [|j] Hj.
      * apply occurs_0 in Hj. congruence.
      * apply occurs_cons in Hj. apply Hmin in Hj. lia.
Qed.

Lemma lazy_then_None (lit s : string) :
  lazy_then lit s = None → ∀ j, ¬ occurs lit s j.
Proof.
  induction s as [|a s IH]; simpl.
  - destruct (startswith lit EmptyString) eqn:Hp; [discriminate|].
    intros _ j (pre & suf & Hs & _).
    destruct pre; [|discriminate]. by apply (startswith_false _ _ suf Hp).
  - destruct (startswith lit (String a s)) eqn:Hp; [discriminate|].
    destruct (lazy_then lit s) as [k'|]; [discriminate|].
    intros _ [|j] Hj.
    + apply occurs_0 in Hj. congruence.
    + apply occurs_cons in Hj. by apply (IH eq_refl j).
Qed.

Lemma is_match_cons (a : ascii) (s : string) (b e : nat) :
  is_match (String a s) (S b) e ↔ ∃ e', e = S e' ∧ is_match s b e'.
Proof.
  split.
  - intros (pre & mid & suf & Hs & Hl & ->). destruct pre as [|c pre]; [discriminate|].
    rewrite app_cons in Hs. injection Hs as -> ->. injection Hl as Hl.
    eexists. split; [|by exists pre, mid, suf]. lia.
  - intros (e' & -> & pre & mid & suf & -> & Hl & ->).
    exists (String a pre), mid, suf. split; [reflexivity|].
    split; [simpl; congruence | lia].
Qed.

Lemma is_match_0 (s : string) (e : nat) :
  is_match s 0 e ↔
  ∃ r j, s = title +:+ r ∧ occurs blank r j ∧
         e = String.length title + j + String.length blank.
Proof.
  split.
  - intros (pre & mid & suf & -> & Hl & ->). destruct pre; [|discriminate].
    exists (mid +:+ blank +:+ suf), (String.length mid).
    split; [reflexivity|]. split; [by exists mid, suf | lia].
  - intros (r & j & -> & (mid & suf & -> & <-) & ->).
    by exists EmptyString, mid, suf.
Qed.

Lemma match_here_Some (s : string) (e : nat) :
  match_here s = Some e → is_match s 0 e ∧ ∀ e', is_match s 0 e' → e ≤ e'.
Proof.
  unfold match_here. destruct (startswith title s) eqn:Hp; [|discriminate].
  apply startswith_inv in Hp as [r ->]. rewrite drop_app_length.
  destruct (lazy_then blank r) as [k|] eqn:Hk; [|discriminate].
  intros [= <-]. apply lazy_then_Some in Hk as (i & Hi & -> & Hmin). split.
  - apply is_match_0. exists r, i. split; [done|]. split; [done | simpl; lia].
  - intros e' (r' & j & Hr & Hj & ->)%is_match_0.
    apply String.app_inj in Hr as <-. apply Hmin in Hj. simpl. lia.
Qed.

Lemma match_here_None (s : string) : match_here s = None → ∀ e, ¬ is_match s 0 e.
Proof.
  unfold match_here. intros Hm e (r & j & -> & Hj & _)%is_match_0.
  rewrite startswith_app, drop_app_length in Hm.
  destruct (lazy_then blank r) as [k|] eqn:Hk; [discriminate|].
  by apply (lazy_then_None _ _ Hk j).
Qed.

(** [re.search] returns the first match. *)
Lemma search_Some (s : string) (b e : nat) :
  search s = Some (b, e) → first_match s b e.
Proof.
  revert b e. induction s as [|a s IH]; intros b e; [discriminate|]; simpl.
  - destruct (match_here (String a s)) as [e0|] eqn:Hm.
    + intros [= <- <-]. apply match_here_Some in Hm as [Hm Hmin]. split; [done|].
      intros [|b'] e' H'; [right; split; [done | by apply Hmin] | left; lia].
    + destruct (search s) as [[b0 e0]|]; [|discriminate].
      intros [= <- <-]. destruct (IH b0 e0 eq_refl) as [Hm0 Hmin]. split.
      * apply is_match_cons. by exists e0.
      * intros [|b'] e' H'.
        { by apply (match_here_None _ Hm) in H'. }
        apply is_match_cons in H' as (e1 & -> & H1).
        destruct (Hmin _ _ H1) as [?|[? ?]]; [left | right]; simpl; lia.
Qed.

(** [re.search] returns [None] only when nothing matches. *)
Lemma search_None (s : string) : search s = None → ∀ b e, ¬ is_match s b e.
Proof.
  induction s as [|a s IH]; simpl.
  - intros _ b e (pre & mid & suf & Hs & _).
    apply (f_equal String.length) in Hs. rewrite !length_app in Hs.
    simpl in Hs. lia.
  - destruct (match_here (String a s)) eqn:Hm; [discriminate|].
    destruct (search s) as [[b0 e0]|]; [discriminate|].
    intros _ [|b] e H'; [by apply (match_here_None _ Hm) in H'|].
    apply is_match_cons in H' as (e1 & -> & H1). by apply (IH eq_refl b e1).
Qed.

Lemma search_matches (s : string) :
  (∃ b e, is_match s b e) → ∃ b e, search s = Some (b, e) ∧ first_match s b e.
Proof.
  intros (b & e & Hm). destruct (search s) as [[b0 e0]|] eqn:Hs.
  - exists b0, e0. split; [done | by apply search_Some].
  - by apply (search_None _ Hs) in Hm.
Qed.

Lemma first_match_le_length (s : string) (b e : nat) :
  is_match s b e → b ≤ e ≤ String.length s.
Proof.
  intros (pre & mid & suf & -> & <- & ->). rewrite !length_app. lia.
Qed.

End ReFacts.

(** ** A program logic over traces

    [triple P m Q X]: run from a world whose trace satisfies [P], the
    computation [m] either returns [a] with a trace satisfying [Q a], or
    raises [x] with a trace satisfying [X x].  [emits φ m]: [m] only
    appends to the trace, and every event it appends satisfies [φ]. *)

Module Logic.
Import Text World Release.

Section Rules.
Context {E : Type} (sh : Shell E).

Definition triple {A} (P : list event → Prop) (m : Py E A)
    (Q : A → list event → Prop) (X : exn → list event → Prop) : Prop :=
  ∀ w, P (trace w) →
    match m w with
    | (Returned a, w') => Q a (trace w')
    | (Raised x, w') => X x (trace w')
    end.

Definition emits {A} (φ : event → Prop) (m : Py E A) : Prop :=
  ∀ w, ∃ d, trace (m w).2 = trace w ++ d ∧ Forall φ d.

(** A trace property that survives appending events of the class [φ]. *)
Definition stable (φ : event → Prop) (P : list event → Prop) : Prop :=
  ∀ t d, P t → Forall φ d → P (t ++ d).

Lemma triple_bind {A B} P (m : Py E A) (k : A → Py E B) Q R X :
  triple P m Q X → (∀ a, triple (Q a) (k a) R X) → triple P (bind m k) R X.
Proof.
  intros Hm Hk w HP. specialize (Hm w HP). unfold bind.
  destruct (m w) as [[a|x] w']; [|done]. by apply Hk.
Qed.

Lemma triple_weaken {A} (P P' : list event → Prop) (m : Py E A)
    (Q Q' : A → list event → Prop) (X X' : exn → list event → Prop) :
  triple P' m Q' X' →
  (∀ t, P t → P' t) → (∀ a t, Q' a t → Q a t) → (∀ x t, X' x t → X x t) →
  triple P m Q X.
Proof.
  intros Hm HP HQ HX w Hw. specialize (Hm w (HP _ Hw)).
  destruct (m w) as [[a|x] w']; auto.
Qed.

Lemma emits_triple {A} φ P (m : Py E A) :
  stable φ P → emits φ m → triple P m (λ _, P) (λ _, P).
Proof.
  intros Hst Hm w HP. destruct (Hm w) as (d & Hd & Hφ).
  destruct (m w) as [[a|x] w']; simpl in Hd; rewrite Hd; by apply Hst.
Qed.

Lemma emits_ret {A} φ (a : A) : emits φ (ret a : Py E A).
Proof. intros w. exists []. by rewrite app_nil_r. Qed.

Lemma emits_raise {A} φ (x : exn) : emits φ (raise x : Py E A).
Proof. intros w. exists []. by rewrite app_nil_r. Qed.

Lemma emits_bind {A B} φ (m : Py E A) (k : A → Py E B) :
  emits φ m → (∀ a, emits φ (k a)) → emits φ (bind m k).
Proof.
  intros Hm Hk w. destruct (Hm w) as (d & Hd & Hφ). unfold bind.
  destruct (m w) as [[a|x] w']; simpl in Hd.
  - destruct (Hk a w') as (d' & Hd' & Hφ'). exists (d ++ d').
    rewrite Hd', Hd, app_assoc. split; [done | by apply Forall_app].
  - by exists d.
Qed.

Lemma emits_bind_ret {A B} φ (a : A) (k : A → Py E B) :
  emits φ (k a) → emits φ (bind (ret a) k).
Proof. intros H w. exact (H w). Qed.

Lemma emits_bind_raise {A B} φ (x : exn) (k : A → Py E B) :
  emits φ (bind (raise x) k).
Proof. intros w. exists []. by rewrite app_nil_r. Qed.

Lemma emits_if {A} φ (b : bool) (m1 m2 : Py E A) :
  emits φ m1 → emits φ m2 → emits φ (if b then m1 else m2).
Proof. by destruct b. Qed.

Lemma emits_mono {A} (φ ψ : event → Prop) (m : Py E A) :
  (∀ ev, φ ev → ψ ev) → emits φ m → emits ψ m.
Proof.
  intros Hφ Hm w. destruct (Hm w) as (d & Hd & Hd'). exists d.
  split; [done | by eapply Forall_impl].
Qed.

Lemma emits_sys_exit {A} φ msg : emits φ (sys_exit msg : Py E A).
Proof. apply emits_raise. Qed.

Lemma emits_print φ s : φ (EvPrint s) → emits φ (print s : Py E unit).
Proof. intros H w. exists [EvPrint s]. split; [done | by constructor]. Qed.

Lemma emits_input φ prompt :
  (∀ answer, φ (EvInput prompt answer)) → emits φ (input prompt : Py E string).
Proof.
  intros H w. unfold input. destruct (stdin (env w)) as [|line rest].
  - exists [EvInput prompt None]. split; [done | by constructor].
  - exists [EvInput prompt (Some line)]. split; [done | by constructor].
Qed.

Lemma emits_path_exists φ p : emits φ (path_exists p : Py E bool).
Proof. intros w. exists []. by rewrite app_nil_r. Qed.

Lemma emits_read_text φ p : emits φ (read_text p : Py E string).
Proof.
  intros w. exists []. rewrite app_nil_r. unfold read_text.
  by destruct (files (env w) !! p) as [[c|]|].
Qed.

Lemma emits_write_text φ p s : φ (EvWrite p s) → emits φ (write_text p s : Py E unit).
Proof.
  intros H w. unfold write_text.
  destruct (files (env w) !! p) as [[c|]|].
  - exists [EvWrite p s]. split; [done | by constructor].
  - exists []. by rewrite app_nil_r.
  - exists [EvWrite p s]. split; [done | by constructor].
Qed.

Lemma emits_datetime_now φ : emits φ (datetime_now : Py E datetime).
Proof. intros w. exists []. by rewrite app_nil_r. Qed.

Lemma emits_run_command φ cmd check :
  (∀ rc, φ (EvRun cmd check rc)) → emits φ (run_command sh cmd check).
Proof.
  intros H w. unfold run_command. destruct (sh cmd (env w)) as [cp e'].
  exists [EvRun cmd check (returncode cp)].
  split; [by destruct (check && _) | by constructor].
Qed.

Lemma triple_ret {A} (P : list event → Prop) (a : A) Q X :
  (∀ t, P t → Q a t) → triple P (ret a) Q X.
Proof. intros H w Hw. by apply H. Qed.

Lemma triple_raise {A} (P : list event → Prop) (x : exn) (Q : A → _) (X : exn → _) :
  (∀ t, P t → X x t) → triple P (raise x) Q X.
Proof. intros H w Hw. by apply H. Qed.

Lemma triple_if {A} P (b : bool) (m1 m2 : Py E A) Q X :
  triple P m1 Q X → triple P m2 Q X → triple P (if b then m1 else m2) Q X.
Proof. by destruct b. Qed.

Lemma triple_print (P : list event → Prop) s (Q : unit → _) (X : exn → _) :
  (∀ t, P t → Q tt (t ++ [EvPrint s])) → triple P (print s) Q X.
Proof. intros H w Hw. by apply H. Qed.

Lemma triple_input (P : list event → Prop) prompt (Q : string → _) (X : exn → _) :
  (∀ t line, P t → Q line (t ++ [EvInput prompt (Some line)])) →
  (∀ t, P t → X EOFError (t ++ [EvInput prompt None])) →
  triple P (input prompt) Q X.
Proof.
  intros HQ HX w Hw. unfold input.
  destruct (stdin (env w)); [by apply HX | by apply HQ].
Qed.





(** [run_command]: a checked command that exits with a non-zero status
    raises [CalledProcessError]; every other run returns. *)
Lemma triple_run_command (P : list event → Prop) cmd check
    (Q : CompletedProcess → _) (X : exn → _) :
  (∀ t cp, P t → (check = true → returncode cp = 0%Z) →
           Q cp (t ++ [EvRun cmd check (returncode cp)])) →
  (∀ t rc, P t → check = true → rc ≠ 0%Z →
           X (CalledProcessError rc cmd) (t ++ [EvRun cmd check rc])) →
  triple P (run_command sh cmd check) Q X.
Proof.
  intros HQ HX w Hw. unfold run_command.
  destruct (sh cmd (env w)) as [cp e']. destruct check; simpl.
  - destruct (Z.eqb_spec (returncode cp) 0); simpl.
    + by apply HQ.
    + by apply HX.
  - apply HQ; [done | discriminate].
Qed.

End Rules.


(** Going through a computation structurally, leaving one goal per
    emitted event. *)
Ltac emits_go :=
  repeat first
    [ apply emits_bind; [|intros ?]
    | apply emits_ret
    | apply emits_raise
    | apply emits_sys_exit
    | apply emits_path_exists
    | apply emits_read_text
    | apply emits_datetime_now
    | apply emits_print
    | apply emits_input; intros ?
    | apply emits_write_text
    | apply emits_run_command; intros ?
    | apply emits_if
    | progress cbv zeta
    | match goal with
      | |- emits _ (match ?x with _ => _ end) => destruct x
      end ].

End Logic.

(** ** Precondition checks: project root, bump level, clean working tree *)

Module Preconditions.
Import Text World Release Logic.

(** Both entries the module-level check looks for are present. *)
Definition in_root {E} (e : Env E) : Prop :=
  is_Some (files e !! "aurelis") ∧ is_Some (files e !! "pyproject.toml").

(** The events of a run other than running [cmd]. *)
Definition not_running (cmd : string) (ev : event) : Prop :=
  ∀ check rc, ev ≠ EvRun cmd check rc.

(** A trace that starts with the banner and one checked command. *)
Definition starts_with (cmd : string) (t : list event) : Prop :=
  ∃ rc rest, t = EvPrint banner :: EvRun cmd true rc :: rest.

Lemma starts_with_stable (cmd : string) : stable (λ _, True) (starts_with cmd).
Proof.
  intros t d (rc & rest & ->) _. exists rc, (rest ++ d). reflexivity.
Qed.

Ltac differ :=
  let H := fresh in
  intros H; cbv in H; first [discriminate H | congruence].

(** What git prints for a dirty tree is not blank: the first line starts
    with a status character that is visible. *)
Lemma dirty_not_blank (out : string) : Porcelain.dirty out → strip out ≠ EmptyString.
Proof.
  intros [Hout Hne]. destruct Hout as [|x y path rest Hx Hy Hxy _]; [done|].
  unfold Porcelain.line, strip. rewrite !TextFacts.app_cons.
  assert (∀ a s, graphic a = true → rstrip (lstrip (String a s)) ≠ EmptyString) as Hvis.
  { intros a s Ha. rewrite TextFacts.lstrip_stop by (by apply TextFacts.graphic_lead).
    by rewrite TextFacts.rstrip_keep by (by apply TextFacts.graphic_lead). }
  destruct (graphic x) eqn:Hgx; [by apply Hvis|].
  unfold Porcelain.status_char in Hx. rewrite Hgx, orb_false_r in Hx.
  apply Nat.eqb_eq, TextFacts.ascii_of_code in Hx as ->.
  cbn [orb] in Hxy. change (lstrip (String (ascii_of_nat 32) ?s)) with (lstrip s).
  by apply Hvis.
Qed.

Section WithShell.
Context {E : Type} (sh : Shell E).

Lemma module_check_outside (w : world E) :
  files (env w) !! "aurelis" = None ∨ files (env w) !! "pyproject.toml" = None →
  module_check w = (Raised (SystemExit (ExitMessage root_error)), w).
Proof.
  intros H. unfold module_check, bind, path_exists.
  destruct H as [-> | ->]; simpl; [done|].
  by destruct (bool_decide _).
Qed.

Lemma module_check_cases (w : world E) :
  module_check w = (Raised (SystemExit (ExitMessage root_error)), w) ∨
  module_check w = (Returned tt, w).
Proof.
  unfold module_check, bind, path_exists.
  destruct (bool_decide _), (bool_decide _); simpl; auto.
Qed.

Lemma module_check_inside (w : world E) :
  in_root (env w) → module_check w = (Returned tt, w).
Proof.
  intros [Ha Hp]. unfold module_check, bind, path_exists.
  by rewrite !bool_decide_eq_true_2.
Qed.

Lemma bump_version_invalid (level : string) (w : world E) :
  level ∉ levels →
  bump_version sh level w = (Raised (SystemExit (ExitMessage (level_error level))), w).
Proof. intros H. unfold bump_version. by rewrite bool_decide_eq_false_2. Qed.

Lemma main_invalid (argv : cmdline) (w : world E) :
  arg_level argv ∉ levels → main sh argv w = (Raised (SystemExit (ExitStatus 2)), w).
Proof. intros H. unfold main, bind, parse_args. by rewrite bool_decide_eq_false_2. Qed.

(** What follows the argument parsing and the banner in [main]. *)
Definition after_banner (level : string) (skip : bool) : Py E unit :=
  ((if negb skip then check_git_clean sh else ret tt);;;
   new_version <~ bump_version sh level;;
   update_changelog new_version;;;
   input edit_prompt;;;
   create_git_tag sh new_version;;;
   push_to_github sh;;;
   create_github_release sh new_version;;;
   print (nl +:+ "✅ Release " +:+ new_version +:+ " completed!");;;
   print "PyPI package will be published automatically when the GitHub release is created.";;;
   print "You can also manually trigger the workflow from the GitHub Actions tab.")%py.

Lemma script_inside (argv : cmdline) (e : Env E) :
  in_root e → arg_level argv ∈ levels →
  script sh argv (start e) =
  after_banner (arg_level argv) (flag_skip_checks argv)
    {| env := e; trace := [EvPrint banner] |}.
Proof.
  intros Hr Hl. unfold script. unfold bind at 1.
  rewrite module_check_inside by done.
  unfold main, parse_args. rewrite bool_decide_eq_true_2 by done. reflexivity.
Qed.

Lemma emits_after_banner φ (level : string) (skip : bool) :
  (skip = false → ∀ rc, φ (EvRun git_status true rc)) →
  (∀ ev, not_running git_status ev → φ ev) →
  emits φ (after_banner level skip).
Proof.
  intros Hgit Hφ. unfold after_banner. apply emits_bind; [|intros _].
  - destruct skip; simpl; [apply emits_ret|].
    unfold check_git_clean, sys_exit. emits_go; [by apply Hgit|].
    apply Hφ. intros ? ?. differ.
  - apply (emits_mono (not_running git_status)); [done|].
    unfold bump_version, get_current_version, update_changelog, create_git_tag,
      push_to_github, create_github_release, sys_exit.
    emits_go. all: intros ? ?; differ.
Qed.

(** With [--skip-checks] the status command is never run. *)
Lemma skip_never_checks (argv : cmdline) (e : Env E) (check : bool) (rc : Z) :
  flag_skip_checks argv = true →
  EvRun git_status check rc ∉ trace (script sh argv (start e)).2.
Proof.
  intros Hskip.
  assert (emits (not_running git_status) (script sh argv)) as Hem.
  { unfold script, module_check, main, parse_args, sys_exit.
    apply emits_bind; [emits_go|intros _].
    destruct (bool_decide _); [|apply emits_bind_raise].
    apply emits_bind_ret.
    apply emits_bind; [apply emits_print; intros ? ?; differ|intros _].
    pose proof (emits_after_banner (not_running git_status)
                  (arg_level argv) (flag_skip_checks argv)) as H.
    rewrite Hskip in H. rewrite Hskip. apply H; [done | auto]. }
  destruct (Hem (start e)) as (d & -> & Hd). simpl.
  intros Hin. rewrite Forall_forall in Hd. by apply (Hd _ Hin check rc).
Qed.

(** With [--skip-checks], in the project root and with a valid level, the
    first command of the run is the version query of [bump_version]. *)
Lemma skip_proceeds (argv : cmdline) (e : Env E) :
  in_root e → arg_level argv ∈ levels → flag_skip_checks argv = true →
  starts_with poetry_short (trace (script sh argv (start e)).2).
Proof.
  intros Hr Hl Hskip. rewrite script_inside, Hskip by done.
  assert (triple (λ t, t = [EvPrint banner])
            (after_banner (arg_level argv) true)
            (λ _, starts_with poetry_short) (λ _, starts_with poetry_short)) as H.
  { unfold after_banner. apply (triple_bind _ _ _ (λ _ t, t = [EvPrint banner])).
    { simpl. by apply triple_ret. }
    intros _. apply (triple_bind _ _ _ (λ _, starts_with poetry_short)).
    - unfold bump_version. rewrite bool_decide_eq_true_2 by done. simpl.
      apply (triple_bind _ _ _ (λ _, starts_with poetry_short)).
      + unfold get_current_version.
        apply (triple_bind _ _ _ (λ _, starts_with poetry_short)).
        * apply triple_run_command; intros; subst; by eexists _, [].
        * intros cp. by apply triple_ret.
      + intros v. eapply emits_triple; [apply starts_with_stable|].
        emits_go; done.
    - intros v. eapply emits_triple; [apply starts_with_stable|].
      unfold update_changelog, create_git_tag, push_to_github,
        create_github_release. emits_go; done. }
  specialize (H {| env := e; trace := [EvPrint banner] |} eq_refl).
  by destruct (after_banner _ _ _) as [[[]|x] w'].
Qed.

(** Without the flag, in the project root and with a valid level, the
    first command of the run is the status command. *)
Lemma noskip_checks_first (argv : cmdline) (e : Env E) :
  in_root e → arg_level argv ∈ levels → flag_skip_checks argv = false →
  starts_with git_status (trace (script sh argv (start e)).2).
Proof.
  intros Hr Hl Hskip. rewrite script_inside, Hskip by done.
  assert (triple (λ t, t = [EvPrint banner])
            (after_banner (arg_level argv) false)
            (λ _, starts_with git_status) (λ _, starts_with git_status)) as H.
  { unfold after_banner. apply (triple_bind _ _ _ (λ _, starts_with git_status)).
    - simpl. unfold check_git_clean, sys_exit.
      apply (triple_bind _ _ _ (λ _, starts_with git_status)).
      + apply triple_run_command; intros; subst; by eexists _, [].
      + intros cp. eapply emits_triple; [apply starts_with_stable|]. emits_go; done.
    - intros _. eapply emits_triple; [apply starts_with_stable|].
      unfold bump_version, get_current_version, update_changelog, create_git_tag,
        push_to_github, create_github_release, sys_exit. emits_go; done. }
  specialize (H {| env := e; trace := [EvPrint banner] |} eq_refl).
  by destruct (after_banner _ _ _) as [[[]|x] w'].
Qed.

(** The world in which a run stops at the status command. *)
Definition stopped_at_status (e : Env E) : world E :=
  {| env := (sh git_status e).2;
     trace := [EvPrint banner; EvRun git_status true (returncode (sh git_status e).1)] |}.

(** Without the flag, a status output that is not empty once stripped
    stops the run at the status command, or earlier. *)
Lemma dirty_stops (argv : cmdline) (e : Env E) :
  flag_skip_checks argv = false →
  strip (stdout (sh git_status e).1) ≠ EmptyString →
  ∃ x w', script sh argv (start e) = (Raised x, w') ∧
          (w' = start e ∨ w' = stopped_at_status e) ∧
          (in_root e → arg_level argv ∈ levels → returncode (sh git_status e).1 = 0%Z →
           x = SystemExit (ExitMessage dirty_error) ∧ w' = stopped_at_status e).
Proof.
  intros Hskip Hdirty.
  destruct (decide (arg_level argv ∈ levels)) as [Hl|Hl]; last first.
  { unfold script, bind at 1.
    destruct (module_check_cases (start e)) as [-> | ->].
    - eexists _, _. split; [done|]. split; [by left|].
      intros _ ?. done.
    - rewrite main_invalid by done. eexists _, _. split; [done|].
      split; [by left|]. intros _ ?. done. }
  destruct (decide (files e !! "aurelis" = None ∨ files e !! "pyproject.toml" = None))
    as [Hout|Hin].
  { unfold script, bind at 1. rewrite module_check_outside by done.
    eexists _, _. split; [done|]. split; [by left|].
    intros [[? Ha] [? Hp]]. destruct Hout; simplify_eq. }
  assert (in_root e) as Hr.
  { split; apply not_eq_None_Some; tauto. }
  rewrite script_inside, Hskip by done.
  unfold after_banner, stopped_at_status. simpl.
  unfold bind at 1, check_git_clean, bind at 1, run_command. simpl.
  destruct (sh git_status e) as [cp e'] eqn:Hsh. simpl in *.
  destruct (Z.eqb_spec (returncode cp) 0) as [Hrc|Hrc]; simpl.
  - destruct (strip (stdout cp)) as [|c s] eqn:Hstrip; [done|]. simpl.
    eexists _, _. split; [done|]. split; [by right|]. done.
  - eexists _, _. split; [done|]. split; [by right|]. done.
Qed.

(** C1. An invocation whose bump level is not one of patch, minor, major is
    rejected before anything is done: the script raises [SystemExit] and
    leaves the world exactly as it found it (no command run, so no version
    bump, no commit and no tag; no file written; nothing printed or read),
    and [bump_version] itself, handed such a level, exits with its error
    message in an unchanged world. *)
Theorem invalid_level_rejected (argv : cmdline) (e : Env E) :
  arg_level argv ∉ levels →
  (∃ a, script sh argv (start e) = (Raised (SystemExit a), start e) ∧
        (in_root e → a = ExitStatus 2)) ∧
  (∀ w, bump_version sh (arg_level argv) w =
        (Raised (SystemExit (ExitMessage (level_error (arg_level argv)))), w)).
Proof.
  intros Hl. split; [|intros w; by apply bump_version_invalid].
  unfold script, bind at 1.
  destruct (decide (in_root e)) as [Hr|Hr].
  - rewrite module_check_inside, main_invalid by done. by eexists.
  - destruct (module_check_cases (start e)) as [-> | ->]; [by eexists|].
    rewrite main_invalid by done. by eexists.
Qed.

(** C9. Started in a directory that lacks [aurelis] or [pyproject.toml],
    the script exits with the project-root error message in an unchanged
    world, whatever the arguments.  The optional flag [--skip-checks]
    skips the clean-tree check of [main]: with it the status command is
    never run; without it (in the project root, with a valid level) the
    status command is the first command of the run. *)
Theorem outside_root_rejected (argv : cmdline) (e : Env E) :
  (files e !! "aurelis" = None ∨ files e !! "pyproject.toml" = None →
   script sh argv (start e) = (Raised (SystemExit (ExitMessage root_error)), start e)) ∧
  (flag_skip_checks argv = true →
   ∀ check rc, EvRun git_status check rc ∉ trace (script sh argv (start e)).2) ∧
  (in_root e → arg_level argv ∈ levels → flag_skip_checks argv = false →
   starts_with git_status (trace (script sh argv (start e)).2)).
Proof.
  split; [|split].
  - intros Hout. unfold script, bind at 1. by rewrite module_check_outside.
  - intros Hskip check rc. by apply skip_never_checks.
  - apply noskip_checks_first.
Qed.

(** C2.  Without the skip flag, when the working tree is dirty, that is
    when [git status --porcelain] prints something, the run ends in an
    exception having done at most two things: printed the banner and run
    the status command; no version is bumped and no file is written.  In
    the project root, with a valid level and a status command that
    succeeded, the exception is the exit with the dirty-tree message.
    With [--skip-checks] the status command is never run and, in the
    project root with a valid level, the run goes on to the version query
    of [bump_version]. *)
Theorem dirty_tree_rejected (argv : cmdline) (e : Env E) :
  (flag_skip_checks argv = false →
   Porcelain.dirty (stdout (sh git_status e).1) →
   ∃ x w', script sh argv (start e) = (Raised x, w') ∧
           (w' = start e ∨ w' = stopped_at_status e) ∧
           (in_root e → arg_level argv ∈ levels →
            returncode (sh git_status e).1 = 0%Z →
            x = SystemExit (ExitMessage dirty_error) ∧ w' = stopped_at_status e)) ∧
  (flag_skip_checks argv = true →
   (∀ check rc, EvRun git_status check rc ∉ trace (script sh argv (start e)).2) ∧
   (in_root e → arg_level argv ∈ levels →
    starts_with poetry_short (trace (script sh argv (start e)).2))).
Proof.
  split.
  - intros Hskip Hdirty. by apply dirty_stops, dirty_not_blank.
  - intros Hskip. split.
    + intros check rc. by apply skip_never_checks.
    + intros Hr Hl. by apply skip_proceeds.
Qed.

End WithShell.

(** *** Concrete runs *)

Lemma in_root_env0 (r : Ref.Repo) : in_root (Ref.with_repo r Ref.env0).
Proof. split; compute_done. Qed.

Lemma invalid_level_rejected_witness :
  (∃ a, script Ref.shell Ref.argv_huge (start Ref.env0) =
        (Raised (SystemExit a), start Ref.env0) ∧
        (in_root Ref.env0 → a = ExitStatus 2)) ∧
  (∀ w, bump_version Ref.shell "huge" w =
        (Raised (SystemExit (ExitMessage (level_error "huge"))), w)).
Proof.
  apply (invalid_level_rejected Ref.shell Ref.argv_huge Ref.env0). compute_done.
Defined.

Lemma outside_root_rejected_witness :
  script Ref.shell Ref.argv_patch (start Ref.env_elsewhere) =
    (Raised (SystemExit (ExitMessage root_error)), start Ref.env_elsewhere) ∧
  (EvRun git_status true 0 ∉ trace (script Ref.shell Ref.argv_patch_skip (start Ref.env0)).2) ∧
  starts_with git_status (trace (script Ref.shell Ref.argv_patch (start Ref.env0)).2).
Proof.
  split; [|split].
  - apply (outside_root_rejected Ref.shell Ref.argv_patch Ref.env_elsewhere).
    left. compute_done.
  - by apply (outside_root_rejected Ref.shell Ref.argv_patch_skip Ref.env0).
  - apply (outside_root_rejected Ref.shell Ref.argv_patch Ref.env0);
      [apply (in_root_env0 Ref.repo0) | compute_done | done].
Defined.

(** One modified file. *)
Lemma dirty_readme : Porcelain.dirty (" M README.md" +:+ nl).
Proof.
  split; [|done].
  exact (Porcelain.output_line " " "M" "README.md" EmptyString
           eq_refl eq_refl eq_refl Porcelain.output_clean).
Defined.

Lemma dirty_tree_rejected_witness :
  (∃ x w', script Ref.shell Ref.argv_patch (start Ref.env_dirty) = (Raised x, w') ∧
           (w' = start Ref.env_dirty ∨ w' = stopped_at_status Ref.shell Ref.env_dirty) ∧
           x = SystemExit (ExitMessage dirty_error)) ∧
  (EvRun git_status true 0 ∉ trace (script Ref.shell Ref.argv_patch_skip (start Ref.env_dirty)).2) ∧
  starts_with poetry_short (trace (script Ref.shell Ref.argv_patch_skip (start Ref.env_dirty)).2).
Proof.
  split; [|split].
  - destruct (dirty_tree_rejected Ref.shell Ref.argv_patch Ref.env_dirty) as [H _].
    destruct H as (x & w' & Hrun & Hw & Hx); [done | exact dirty_readme |].
    exists x, w'. split; [done|]. split; [done|].
    apply Hx; [apply in_root_env0 | compute_done | done].
  - destruct (dirty_tree_rejected Ref.shell Ref.argv_patch_skip Ref.env_dirty) as [_ H].
    by apply H.
  - destruct (dirty_tree_rejected Ref.shell Ref.argv_patch_skip Ref.env_dirty) as [_ H].
    apply H; [done | apply in_root_env0 | compute_done].
Defined.

End Preconditions.

(** ** Confirmation prompts and remote operations *)

Module Remote.
Import Text World Release Logic.

(** The commands that reach the remote. *)
Definition push_cmd (cmd : string) : Prop := cmd = "git push" ∨ cmd = "git push --tags".
Definition release_create (cmd : string) : Prop :=
  startswith "gh release create" cmd = true.

(** An answer other than [y] or [Y]; no answer at all counts as one. *)
Definition declined (answer : option string) : Prop :=
  ∀ a, answer = Some a → lower a ≠ "y".

Section Guard.
Context (prompt : string) (guarded : string → Prop).

(** The events tied to one confirmation: its prompt, the commands behind it. *)
Definition related (ev : event) : Prop :=
  match ev with
  | EvRun cmd _ _ => guarded cmd
  | EvInput p _ => p = prompt
  | _ => False
  end.

Definition unrelated (ev : event) : Prop := ¬ related ev.

Definition not_this_prompt (ev : event) : Prop := ∀ answer, ev ≠ EvInput prompt answer.

(** Nothing of the confirmation has happened yet. *)
Definition untouched (t : list event) : Prop := Forall unrelated t.

(** No guarded command was run. *)
Definition none_run (t : list event) : Prop :=
  ∀ cmd check rc, EvRun cmd check rc ∈ t → ¬ guarded cmd.

(** Every answer given to the prompt was a yes. *)
Definition all_yes (t : list event) : Prop :=
  ∀ answer, EvInput prompt answer ∈ t → ∃ a, answer = Some a ∧ lower a = "y".

Definition guard_kept (t : list event) : Prop := none_run t ∨ all_yes t.

Lemma untouched_none_run t : untouched t → none_run t.
Proof.
  intros Ht cmd check rc Hin Hg. unfold untouched in Ht.
  rewrite Forall_forall in Ht. by apply (Ht _ Hin).
Qed.

Lemma untouched_all_yes t : untouched t → all_yes t.
Proof.
  intros Ht answer Hin. unfold untouched in Ht.
  rewrite Forall_forall in Ht. by destruct (Ht _ Hin).
Qed.

Lemma untouched_stable : stable unrelated untouched.
Proof. intros t d Ht Hd. by apply Forall_app. Qed.

Lemma none_run_stable : stable unrelated none_run.
Proof.
  intros t d Ht Hd cmd check rc [Hin|Hin]%elem_of_app; [by eapply Ht|].
  rewrite Forall_forall in Hd. exact (Hd _ Hin).
Qed.

Lemma all_yes_stable : stable not_this_prompt all_yes.
Proof.
  intros t d Ht Hd answer [Hin|Hin]%elem_of_app; [by apply Ht|].
  rewrite Forall_forall in Hd. by destruct (Hd _ Hin answer).
Qed.

Lemma unrelated_not_this_prompt ev : unrelated ev → not_this_prompt ev.
Proof. intros H answer ->. by apply H. Qed.

Lemma guard_kept_stable : stable unrelated guard_kept.
Proof.
  intros t d [Ht|Ht] Hd; [left; by apply none_run_stable|right].
  apply all_yes_stable; [done|].
  eapply Forall_impl; [done | apply unrelated_not_this_prompt].
Qed.

(** What the guard gives: a declined prompt in the trace and no guarded
    command in it. *)
Lemma guard_kept_declined t answer cmd check rc :
  guard_kept t → EvInput prompt answer ∈ t → declined answer →
  EvRun cmd check rc ∈ t → ¬ guarded cmd.
Proof.
  intros [Hn|Hy] Hin Hdecl Hrun; [by eapply Hn|].
  destruct (Hy _ Hin) as (a & -> & Ha). by destruct (Hdecl a).
Qed.

Context {E : Type}.

(** The shape both confirmations share: ask, and run the guarded part
    only on a yes. *)
Lemma triple_confirm {A} (m_no m_yes : Py E A) :
  emits unrelated m_no → emits not_this_prompt m_yes →
  triple untouched
    (confirm <~ input prompt;;
     if negb (bool_decide (lower confirm = "y")) then m_no else m_yes)%py
    (λ _, guard_kept) (λ _, guard_kept).
Proof.
  intros Hno Hyes.
  apply (triple_bind _ _ _
           (λ line t, ∃ t0, untouched t0 ∧ t = t0 ++ [EvInput prompt (Some line)])).
  - apply triple_input.
    + intros t line Ht. by exists t.
    + intros t Ht. left. intros cmd check rc [Hin|Hin]%elem_of_app.
      * by eapply untouched_none_run.
      * by apply list_elem_of_singleton in Hin.
  - intros line. destruct (bool_decide_reflect (lower line = "y")) as [Hy|Hn]; simpl.
    + eapply triple_weaken.
      * apply (emits_triple not_this_prompt all_yes); [apply all_yes_stable | done].
      * intros t (t0 & Ht0 & ->) answer [Hin|Hin]%elem_of_app.
        { by apply (untouched_all_yes t0). }
        apply list_elem_of_singleton in Hin as [= ->]. by exists line.
      * intros a t Ht. by right.
      * intros x t Ht. by right.
    + eapply triple_weaken.
      * apply (emits_triple unrelated none_run); [apply none_run_stable | done].
      * intros t (t0 & Ht0 & ->) cmd check rc [Hin|Hin]%elem_of_app.
        { by eapply untouched_none_run. }
        by apply list_elem_of_singleton in Hin.
      * intros a t Ht. by left.
      * intros x t Ht. by left.
Qed.

(** A part of the run that has nothing to do with the confirmation, before
    the prompt and after it. *)
Lemma triple_before {A} (m : Py E A) :
  emits unrelated m → triple untouched m (λ _, untouched) (λ _, guard_kept).
Proof.
  intros Hm. eapply triple_weaken.
  - by apply (emits_triple unrelated untouched); [apply untouched_stable|].
  - done.
  - done.
  - intros x t Ht. left. by apply untouched_none_run.
Qed.

Lemma triple_after {A} (m : Py E A) :
  emits unrelated m → triple guard_kept m (λ _, guard_kept) (λ _, guard_kept).
Proof. intros Hm. by apply (emits_triple unrelated guard_kept); [apply guard_kept_stable|]. Qed.

Lemma untouched_guard_kept t : untouched t → guard_kept t.
Proof. intros Ht. left. by apply untouched_none_run. Qed.

Lemma triple_before_last {A} (m : Py E A) :
  emits unrelated m → triple untouched m (λ _, guard_kept) (λ _, guard_kept).
Proof.
  intros Hm. eapply triple_weaken; [by apply triple_before | done | |done].
  intros a t. apply untouched_guard_kept.
Qed.

End Guard.

(** Deciding that an event has nothing to do with a confirmation. *)
Ltac unrelated_event :=
  let H := fresh in
  intros H; cbv in H;
  first [ contradiction | discriminate H
        | destruct H; discriminate | congruence ].

Ltac before_step prompt guarded :=
  apply (triple_bind _ _ _ (λ _, untouched prompt guarded));
  [apply (triple_before prompt guarded); emits_go; try unrelated_event | intros ?].

Section WithShell.
Context {E : Type} (sh : Shell E).

Lemma script_push_guard (argv : cmdline) :
  triple (untouched push_prompt push_cmd) (script sh argv)
    (λ _, guard_kept push_prompt push_cmd) (λ _, guard_kept push_prompt push_cmd).
Proof.
  unfold script, module_check, main, parse_args, check_git_clean, bump_version,
    get_current_version, update_changelog, create_git_tag, sys_exit.
  do 8 (before_step push_prompt push_cmd).
  apply (triple_bind _ _ _ (λ _, guard_kept push_prompt push_cmd)).
  - unfold push_to_github. apply triple_confirm; emits_go; try unrelated_event.
    all: intros ?; discriminate.
  - intros _. apply triple_after. unfold create_github_release.
    emits_go; unrelated_event.
Qed.

Lemma script_release_guard (argv : cmdline) :
  triple (untouched release_prompt release_create) (script sh argv)
    (λ _, guard_kept release_prompt release_create)
    (λ _, guard_kept release_prompt release_create).
Proof.
  unfold script, module_check, main, parse_args, check_git_clean, bump_version,
    get_current_version, update_changelog, create_git_tag, push_to_github, sys_exit.
  do 9 (before_step release_prompt release_create).
  apply (triple_bind _ _ _ (λ _, guard_kept release_prompt release_create)).
  - unfold create_github_release. before_step release_prompt release_create.
    destruct (negb _).
    + apply triple_before_last. emits_go; unrelated_event.
    + apply triple_confirm; emits_go; try unrelated_event.
      all: intros ?; discriminate.
  - intros _. apply triple_after. emits_go; unrelated_event.
Qed.

(** C5. In every run of the script: if an answer given to the push prompt
    is not [y] up to case, no [git push] and no [git push --tags] is among
    the commands run; and if an answer given to the release prompt is not
    [y] up to case, no [gh release create] command is among them. *)
Theorem declined_prompts_stay_local (argv : cmdline) (e : Env E) :
  (∀ answer cmd check rc,
     EvInput push_prompt answer ∈ trace (script sh argv (start e)).2 →
     declined answer →
     EvRun cmd check rc ∈ trace (script sh argv (start e)).2 →
     ¬ push_cmd cmd) ∧
  (∀ answer cmd check rc,
     EvInput release_prompt answer ∈ trace (script sh argv (start e)).2 →
     declined answer →
     EvRun cmd check rc ∈ trace (script sh argv (start e)).2 →
     ¬ release_create cmd).
Proof.
  split; intros answer cmd check rc Hin Hdecl Hrun.
  - pose proof (script_push_guard argv (start e) (Forall_nil_2 _)) as H.
    destruct (script sh argv (start e)) as [[[]|x] w'];
      by eapply guard_kept_declined.
  - pose proof (script_release_guard argv (start e) (Forall_nil_2 _)) as H.
    destruct (script sh argv (start e)) as [[[]|x] w'];
      by eapply guard_kept_declined.
Qed.

End WithShell.

(** *** Concrete runs *)

Lemma declined_prompts_stay_local_witness :
  EvRun "git push" true 0 ∉ trace (script Ref.shell Ref.argv_minor (start Ref.env_declining)).2.
Proof.
  intros Hrun.
  destruct (declined_prompts_stay_local Ref.shell Ref.argv_minor Ref.env_declining) as [H _].
  apply (H (Some "no") "git push" true 0%Z); [compute_done | | done | by left].
  intros a [= <-]. compute_done.
Defined.

End Remote.

(** ** Failing commands *)

Module Failures.
Import Text World Release Logic.






Section WithShell.
Context {E : Type} (sh : Shell E).




End WithShell.

(** *** Concrete runs *)



End Failures.

(** ** The changelog *)

Module Changelog.
Import Text TextFacts World Release Logic ReFacts.

(** The world after [with open(p, "w") as f: f.write(c)]. *)
Definition put_file {E} (p c : string) (w : world E) : world E :=
  record (EvWrite p c)
    (with_env {| files := <[p := File c]> (files (env w)); stdin := stdin (env w);
                 clock := clock (env w); ext := ext (env w) |} w).

(** The date string [update_changelog] computes in a world. *)
Definition today {E} (w : world E) : string := strftime_Ymd (clock (env w)).

(** The two parts of the default changelog: the title with the blank line
    after it, and the description with the blank line after it. *)
Definition default_title : string := "# Changelog" +:+ nl +:+ nl.
Definition default_description : string :=
  "All notable changes to this project will be documented in this file." +:+ nl +:+ nl.

(** The heading line of a section and the fixed body under it. *)
Definition heading (version date : string) : string :=
  "## [" +:+ version +:+ "] - " +:+ date.
Definition section_body : string :=
  "### Added" +:+ nl +:+ "- " +:+ nl +:+ nl +:+
  "### Changed" +:+ nl +:+ "- " +:+ nl +:+ nl +:+
  "### Fixed" +:+ nl +:+ "- " +:+ nl +:+ nl.

(** Reading [YYYY-MM-DD] back: four digits, a dash, two digits, a dash,
    two digits. *)
Definition is_dash (a : ascii) : bool := Ascii.eqb a "-".

Definition two (a b : ascii) : string := String a (String b EmptyString).
Definition four (a b c d : ascii) : string := String a (String b (two c d)).

Definition parse_Ymd (s : string) : option datetime :=
  match s with
  | String y1 (String y2 (String y3 (String y4 (String s1
      (String m1 (String m2 (String s2 (String d1 (String d2 EmptyString))))))))) =>
      if is_dash s1 && is_dash s2
      then y ← number (four y1 y2 y3 y4);
           m ← number (two m1 m2);
           d ← number (two d1 d2);
           Some {| year := y; month := m; day := d |}
      else None
  | _ => None
  end.

(** [datetime.MAXYEAR], 9999. *)
Definition MAXYEAR : nat := 9 * 1000 + 999.

(** The ranges of a [datetime]'s year, month and day. *)
Definition valid_date (d : datetime) : Prop :=
  1 ≤ year d ≤ MAXYEAR ∧ 1 ≤ month d ≤ 12 ∧ 1 ≤ day d ≤ 31.

Lemma digit_val_digit (k : nat) :
  k < 10 → digit_val (ascii_of_nat (48 + k)) = Some k.
Proof.
  intros Hk. do 10 (destruct k as [|k]; [reflexivity|]). lia.
Qed.

Lemma number_pad2 (n : nat) : n < 100 → number (pad2 n) = Some n.
Proof.
  intros Hn. unfold pad2, digit, number. rewrite app_cons, app_nil_l.
  cbn [number_from].
  rewrite !digit_val_digit by (apply Nat.mod_upper_bound; lia).
  f_equal. rewrite (Nat.mod_small (n / 10)) by (apply Nat.Div0.div_lt_upper_bound; lia).
  pose proof (Nat.div_mod_eq n 10). lia.
Qed.

Lemma number_pad4 (n : nat) : n ≤ MAXYEAR → number (pad4 n) = Some n.
Proof.
  intros Hn. unfold MAXYEAR in Hn. unfold pad4, digit, number.
  rewrite !app_cons, !app_nil_l. cbn [number_from].
  rewrite !digit_val_digit by (apply Nat.mod_upper_bound; lia).
  f_equal.
  pose proof (Nat.div_mod_eq n 10). pose proof (Nat.div_mod_eq (n / 10) 10).
  pose proof (Nat.div_mod_eq (n / 100) 10).
  assert (n / 10 / 10 = n / 100) as H100 by (rewrite Nat.Div0.div_div; reflexivity).
  assert (n / 100 / 10 = n / 1000) as H1000 by (rewrite Nat.Div0.div_div; reflexivity).
  rewrite (Nat.mod_small (n / 1000)) by (apply Nat.Div0.div_lt_upper_bound; lia).
  lia.
Qed.

(** The date string reads back as the date it was made from. *)
Lemma parse_strftime (d : datetime) :
  valid_date d → parse_Ymd (strftime_Ymd d) = Some d.
Proof.
  intros (Hy & Hm & Hd). destruct d as [y m dd]. cbn [year month day] in *.
  unfold strftime_Ymd. cbn [year month day].
  pose proof (number_pad4 y) as H4. pose proof (number_pad2 m) as H2m.
  pose proof (number_pad2 dd) as H2d.
  unfold pad4, pad2, digit in *.
  repeat (rewrite app_assoc in * || rewrite app_cons in * || rewrite app_nil_l in * ).
  unfold parse_Ymd, four, two, is_dash. cbv beta iota.
  rewrite Ascii.eqb_refl. cbn [andb].
  rewrite H4, H2m, H2d by lia. reflexivity.
Qed.

Lemma new_section_heading (version date : string) :
  new_section version date = heading version date +:+ nl +:+ nl +:+ section_body.
Proof. unfold new_section, heading. by rewrite !app_assoc. Qed.

Lemma default_changelog_parts : default_changelog = default_title +:+ default_description.
Proof. reflexivity. Qed.

Lemma default_changelog_match :
  Re.search default_changelog = Some (0, String.length default_title).
Proof. reflexivity. Qed.

Section Any.
Context {E : Type}.

(** [update_changelog] on a world that has the file, [content] being
    the text read from it.  The text goes out as it is ([os.linesep] is
    the line feed). *)
Lemma update_changelog_file (version raw content : string) (w : world E) :
  files (env w) !! changelog_path = Some (File raw) →
  universal_newlines raw = content →
  update_changelog version w =
  match Re.search content with
  | Some m =>
      (Returned true,
       record (EvPrint "  Please edit the changelog to add release notes")
         (record (EvPrint ("✓ Updated CHANGELOG.md with version " +:+ version))
            (put_file changelog_path
               (take m.2 content +:+ new_section version (today w) +:+ drop m.2 content)
               w)))
  | None => (Returned false, record (EvPrint changelog_warning) w)
  end.
Proof.
  intros Hf <-. unfold update_changelog, bind, path_exists, read_text, datetime_now.
  rewrite Hf. simpl. rewrite Hf.
  destruct (Re.search (universal_newlines raw)) as [m|]; [|done].
  unfold write_text, print, put_file. rewrite Hf, to_linesep_posix. reflexivity.
Qed.

(** [update_changelog] on a world that lacks the file: it goes on from
    the world in which the default changelog was written. *)
Lemma update_changelog_missing (version : string) (w : world E) :
  files (env w) !! changelog_path = None →
  update_changelog version w =
  update_changelog version (put_file changelog_path default_changelog w).
Proof.
  intros Hf. unfold update_changelog, bind at 1 2, path_exists at 1.
  rewrite Hf. rewrite bool_decide_eq_false_2 by (by intros [? ?]). simpl.
  unfold write_text at 1. rewrite Hf, to_linesep_posix.
  symmetry. unfold bind at 1 2, path_exists at 1. simpl.
  rewrite lookup_insert_eq. rewrite bool_decide_eq_true_2 by done. reflexivity.
Qed.

(** The default changelog is read back as it was written. *)
Lemma default_changelog_text : universal_newlines default_changelog = default_changelog.
Proof. reflexivity. Qed.

(** What a successful insertion leaves: the file rewritten, two events
    printed after the write, everything else as before. *)
Lemma update_changelog_inserts (version raw content : string) (w : world E) :
  files (env w) !! changelog_path = Some (File raw) →
  universal_newlines raw = content →
  (∃ b e, is_match content b e) →
  ∃ b pos w',
    first_match content b pos ∧
    update_changelog version w = (Returned true, w') ∧
    files (env w') =
      <[changelog_path :=
          File (take pos content +:+ new_section version (today w) +:+ drop pos content)]>
        (files (env w)) ∧
    stdin (env w') = stdin (env w) ∧ clock (env w') = clock (env w) ∧
    ext (env w') = ext (env w) ∧
    trace w' = trace w ++
      [EvWrite changelog_path
         (take pos content +:+ new_section version (today w) +:+ drop pos content);
       EvPrint ("✓ Updated CHANGELOG.md with version " +:+ version);
       EvPrint "  Please edit the changelog to add release notes"].
Proof.
  intros Hf Hc Hm. destruct (search_matches _ Hm) as (b & pos & Hs & Hfirst).
  exists b, pos. eexists. split; [done|].
  rewrite (update_changelog_file _ _ _ _ Hf Hc), Hs. split; [reflexivity|].
  simpl. by rewrite <- !(assoc_L (++)).
Qed.

(** C3. When [CHANGELOG.md] exists and no slice of its content, the text
    [update_changelog] reads from it, is in the language of the header
    pattern, [update_changelog] returns [False] and the only thing it
    does is print the warning: the environment, the files in it, is what
    it was, and no write is among the events. *)
Theorem missing_header_untouched (version raw : string) (w : world E) :
  files (env w) !! changelog_path = Some (File raw) →
  (∀ b e, ¬ is_match (universal_newlines raw) b e) →
  ∃ w', update_changelog version w = (Returned false, w') ∧
        env w' = env w ∧
        trace w' = trace w ++ [EvPrint changelog_warning].
Proof.
  intros Hf Hno. exists (record (EvPrint changelog_warning) w).
  rewrite (update_changelog_file _ _ _ _ Hf eq_refl).
  destruct (Re.search (universal_newlines raw)) as [[b e]|] eqn:Hs; [|done].
  apply search_Some in Hs as [Hm _]. by destruct (Hno b e).
Qed.

(** C6, as amended.  When the content of [CHANGELOG.md], the text
    [update_changelog] reads from it (carriage returns at line ends read
    as line feeds), matches the header pattern, [update_changelog] writes
    back that text with the new section put in at the end of the first
    match of the pattern: the text splits as [pre ++ suf] at that offset
    and the file becomes [pre ++ section ++ suf]; no other file changes,
    and this is the only write.  When the file holds no carriage return,
    [pre] and [suf] are the very bytes the file held before and after
    the offset. *)
Theorem insertion_at_anchor (version raw : string) (w : world E) :
  files (env w) !! changelog_path = Some (File raw) →
  (∃ b e, is_match (universal_newlines raw) b e) →
  ∃ b pos pre suf w',
    first_match (universal_newlines raw) b pos ∧
    universal_newlines raw = pre +:+ suf ∧ String.length pre = pos ∧
    update_changelog version w = (Returned true, w') ∧
    files (env w') !! changelog_path =
      Some (File (pre +:+ new_section version (today w) +:+ suf)) ∧
    (∀ p, p ≠ changelog_path → files (env w') !! p = files (env w) !! p) ∧
    (∀ p c, EvWrite p c ∈ trace w' → EvWrite p c ∈ trace w ∨
       (p = changelog_path ∧ c = pre +:+ new_section version (today w) +:+ suf)) ∧
    (no_cr raw = true → raw = pre +:+ suf).
Proof.
  intros Hf Hm.
  destruct (update_changelog_inserts version raw _ w Hf eq_refl Hm)
    as (b & pos & w' & Hfirst & Hrun & Hfiles & _ & _ & _ & Htrace).
  exists b, pos, (take pos (universal_newlines raw)),
    (drop pos (universal_newlines raw)), w'.
  split; [done|]. split; [by rewrite take_drop|]. split.
  { apply length_take. destruct Hfirst as [Hfirst _].
    apply first_match_le_length in Hfirst. lia. }
  split; [done|]. rewrite Hfiles, Htrace. split; [by rewrite lookup_insert_eq|].
  split; [|split].
  - intros p Hp. by rewrite lookup_insert_ne.
  - intros p c [Hin|Hin]%elem_of_app; [by left|right].
    rewrite !elem_of_cons in Hin.
    destruct Hin as [[= -> ->]|[[=]|[[=]|Hin]]]; [done | by apply elem_of_nil in Hin].
  - intros Hcr. rewrite take_drop. symmetry. by apply universal_newlines_id.
Qed.

End Any.

Section WithShell.
Context {E : Type} (sh : Shell E).

(** C4. When the content of [CHANGELOG.md], the text [update_changelog]
    reads from it, matches the header pattern, what [update_changelog]
    puts into it is the fixed template: the heading line
    [## [version] - date], a blank line, and the fixed body, where [date]
    is the clock's date written [YYYY-MM-DD] (it reads back as the
    clock's year, month and day).  In the workflow the version is the one
    [bump_version] has just returned. *)
Theorem inserted_section_template (version raw : string) (w : world E) :
  files (env w) !! changelog_path = Some (File raw) →
  (∃ b e, is_match (universal_newlines raw) b e) →
  ∃ pre suf w',
    universal_newlines raw = pre +:+ suf ∧
    update_changelog version w = (Returned true, w') ∧
    files (env w') !! changelog_path =
      Some (File (pre +:+
                  (heading version (strftime_Ymd (clock (env w))) +:+ nl +:+ nl +:+
                   section_body) +:+
                  suf)) ∧
    (valid_date (clock (env w)) →
     parse_Ymd (strftime_Ymd (clock (env w))) = Some (clock (env w))) ∧
    (∀ level w0,
       bump_version sh level w0 = (Returned version, w) →
       (new_version <~ bump_version sh level;; update_changelog new_version)%py w0 =
       (Returned true, w')).
Proof.
  intros Hf Hm.
  destruct (update_changelog_inserts version raw _ w Hf eq_refl Hm)
    as (b & pos & w' & _ & Hrun & Hfiles & _).
  exists (take pos (universal_newlines raw)), (drop pos (universal_newlines raw)), w'.
  split; [by rewrite take_drop|]. split; [done|]. split.
  { by rewrite Hfiles, lookup_insert_eq, <- new_section_heading. }
  split; [apply parse_strftime|].
  intros level w0 Hb. unfold bind. by rewrite Hb.
Qed.

End WithShell.

Section Fresh.
Context {E : Type}.

(** When [CHANGELOG.md] does not exist, [update_changelog] first writes
    the default changelog (the title [# Changelog], a blank line, the
    description line, a blank line); on that content the header pattern
    matches, its first match being the title and the blank line after it;
    the new section is put at the end of that match, and the function
    returns [True]: the warning branch is never taken. *)
Lemma missing_changelog_created (version : string) (w : world E) :
  files (env w) !! changelog_path = None →
  ∃ w', update_changelog version w = (Returned true, w') ∧
        first_match default_changelog 0 (String.length default_title) ∧
        files (env w') !! changelog_path =
          Some (File (default_title +:+ new_section version (today w) +:+
                      default_description)) ∧
        trace w' = trace w ++
          [EvWrite changelog_path (default_title +:+ default_description);
           EvWrite changelog_path
             (default_title +:+ new_section version (today w) +:+ default_description);
           EvPrint ("✓ Updated CHANGELOG.md with version " +:+ version);
           EvPrint "  Please edit the changelog to add release notes"].
Proof.
  intros Hf. rewrite (update_changelog_missing _ _ Hf).
  rewrite (update_changelog_file version default_changelog default_changelog)
    by (simpl; apply lookup_insert_eq || reflexivity).
  rewrite default_changelog_match. eexists. split; [reflexivity|].
  split; [by apply search_Some|]. split.
  - simpl. by rewrite lookup_insert_eq.
  - simpl. by rewrite <- !(assoc_L (++)).
Qed.

End Fresh.

(** *** Concrete runs *)

Lemma missing_header_untouched_witness :
  ∃ w', update_changelog "1.0.1" (start Ref.env_untitled_changelog) = (Returned false, w') ∧
        env w' = Ref.env_untitled_changelog ∧
        trace w' = [EvPrint changelog_warning].
Proof.
  eapply (missing_header_untouched "1.0.1" _ (start Ref.env_untitled_changelog)).
  - compute_done.
  - intros b e Hm. destruct (search_matches _ (ex_intro _ b (ex_intro _ e Hm)))
      as (b' & e' & Hs & _). vm_compute in Hs. discriminate Hs.
Defined.

Lemma old_changelog_text : universal_newlines Ref.old_changelog = Ref.old_changelog.
Proof. reflexivity. Defined.

Lemma old_changelog_matches : ∃ b e, is_match Ref.old_changelog b e.
Proof.
  exists 6, 33, ("Notes" +:+ nl), (nl +:+ "All releases."),
    ("## [1.0.0] - 2025-01-01" +:+ nl +:+ nl +:+ "First." +:+ nl).
  split; [reflexivity|]. split; reflexivity.
Defined.

Lemma insertion_at_anchor_witness :
  ∃ b pos pre suf w',
    first_match Ref.old_changelog b pos ∧
    Ref.old_changelog = pre +:+ suf ∧ String.length pre = pos ∧
    update_changelog "1.0.1" (start Ref.env_with_changelog) = (Returned true, w') ∧
    files (env w') !! changelog_path =
      Some (File (pre +:+ new_section "1.0.1" "2026-03-07" +:+ suf)) ∧
    (∀ p, p ≠ changelog_path →
          files (env w') !! p = files Ref.env_with_changelog !! p) ∧
    (∀ p c, EvWrite p c ∈ trace w' → EvWrite p c ∈ [] ∨
       (p = changelog_path ∧ c = pre +:+ new_section "1.0.1" "2026-03-07" +:+ suf)) ∧
    (no_cr Ref.old_changelog = true → Ref.old_changelog = pre +:+ suf).
Proof.
  apply (insertion_at_anchor "1.0.1" Ref.old_changelog (start Ref.env_with_changelog)).
  - compute_done.
  - exact old_changelog_matches.
Defined.

(** C6 as stated fails on the line endings.  The changelog has its
    header on lines that end in a line feed and an older entry on lines
    that end in carriage return and line feed.  The header pattern
    matches (in the bytes as in the text read) and the section goes in
    after the header, but what follows the section is not what followed
    the insertion point before: the carriage returns are gone.  No split
    of the old bytes around the new section gives the new file. *)
Lemma line_endings_rewritten :
  files Ref.env_crlf_changelog !! changelog_path = Some (File Ref.crlf_changelog) ∧
  first_match Ref.crlf_changelog 0 13 ∧
  first_match (universal_newlines Ref.crlf_changelog) 0 13 ∧
  (update_changelog "1.0.1" (start Ref.env_crlf_changelog)).1 = Returned true ∧
  files (env (update_changelog "1.0.1" (start Ref.env_crlf_changelog)).2) !! changelog_path =
    Some (File (take 13 Ref.crlf_changelog +:+ new_section "1.0.1" "2026-03-07" +:+
                "## [1.0.0] - 2025-01-01" +:+ nl +:+ nl +:+ "First." +:+ nl)) ∧
  drop 13 Ref.crlf_changelog =
    "## [1.0.0] - 2025-01-01" +:+ cr +:+ nl +:+ cr +:+ nl +:+ "First." +:+ cr +:+ nl ∧
  (∀ pre suf,
     Ref.crlf_changelog = pre +:+ suf →
     files (env (update_changelog "1.0.1" (start Ref.env_crlf_changelog)).2) !! changelog_path ≠
       Some (File (pre +:+ new_section "1.0.1" "2026-03-07" +:+ suf))).
Proof.
  split; [reflexivity|]. split; [by apply search_Some|]. split; [by apply search_Some|].
  split; [reflexivity|]. split; [reflexivity|]. split; [reflexivity|].
  intros pre suf Hsplit.
  assert (files (env (update_changelog "1.0.1" (start Ref.env_crlf_changelog)).2)
            !! changelog_path =
          Some (File (take 13 Ref.crlf_changelog +:+ new_section "1.0.1" "2026-03-07" +:+
                      universal_newlines (drop 13 Ref.crlf_changelog)))) as -> by reflexivity.
  assert (String.length
            (take 13 Ref.crlf_changelog +:+ new_section "1.0.1" "2026-03-07" +:+
             universal_newlines (drop 13 Ref.crlf_changelog)) =
          45 + String.length (new_section "1.0.1" "2026-03-07")) as Hlen.
  { rewrite !length_app. reflexivity. }
  assert (String.length Ref.crlf_changelog = 48) as Hold by reflexivity.
  intros Heq. assert (take 13 Ref.crlf_changelog +:+ new_section "1.0.1" "2026-03-07" +:+
                      universal_newlines (drop 13 Ref.crlf_changelog) =
                      pre +:+ new_section "1.0.1" "2026-03-07" +:+ suf) as H by congruence.
  rewrite H in Hlen. rewrite Hsplit in Hold.
  rewrite length_app in Hold. rewrite !length_app in Hlen. lia.
Qed.

Lemma inserted_section_template_witness :
  ∃ pre suf w',
    Ref.old_changelog = pre +:+ suf ∧
    update_changelog "1.0.1" (start Ref.env_with_changelog) = (Returned true, w') ∧
    files (env w') !! changelog_path =
      Some (File (pre +:+ (heading "1.0.1" "2026-03-07" +:+ nl +:+ nl +:+ section_body) +:+
                  suf)) ∧
    parse_Ymd "2026-03-07" = Some Ref.today0.
Proof.
  destruct (inserted_section_template Ref.shell "1.0.1" Ref.old_changelog
              (start Ref.env_with_changelog))
    as (pre & suf & w' & Hc & Hrun & Hfile & Hdate & _).
  - compute_done.
  - exact old_changelog_matches.
  - exists pre, suf, w'. split; [done|]. split; [done|]. split; [done|].
    apply Hdate. unfold valid_date, MAXYEAR. simpl. lia.
Defined.

Lemma missing_changelog_created_run :
  ∃ w', update_changelog "1.0.1" (start Ref.env0) = (Returned true, w') ∧
        files (env w') !! changelog_path =
          Some (File (default_title +:+ new_section "1.0.1" "2026-03-07" +:+
                      default_description)).
Proof.
  destruct (missing_changelog_created "1.0.1" (start Ref.env0)) as (w' & Hrun & _ & Hfile & _).
  - compute_done.
  - by exists w'.
Qed.

(** C10.  The code at the input where it leaves the claim: a project
    without a changelog.  [update_changelog] returns [True], and the file
    it leaves is not the default header (title, description line, blank
    line) with the new section after it, which is where the claim and the
    comment in the code ("after the header") put the section: the section
    stands between the title and the description line. *)
Lemma section_lands_before_description :
  files Ref.env0 !! changelog_path = None ∧
  (update_changelog "1.0.1" (start Ref.env0)).1 = Returned true ∧
  files (env (update_changelog "1.0.1" (start Ref.env0)).2) !! changelog_path =
    Some (File (default_title +:+ new_section "1.0.1" "2026-03-07" +:+ default_description)) ∧
  default_title +:+ new_section "1.0.1" "2026-03-07" +:+ default_description ≠
    default_changelog +:+ new_section "1.0.1" "2026-03-07".
Proof. repeat split; compute_done. Qed.

End Changelog.

(** ** Bumping the version *)

Module Versioning.
Import Text TextFacts World Release Semver.

(** The requested component went up by one and the components to its left
    did not move. *)
Definition component_incremented (level : string) (v v' : semver) : Prop :=
  (level = "patch" → major v' = major v ∧ minor v' = minor v ∧ patch v' = S (patch v)) ∧
  (level = "minor" → major v' = major v ∧ minor v' = S (minor v)) ∧
  (level = "major" → major v' = S (major v)).

Fixpoint all_chars (P : ascii → bool) (s : string) : bool :=
  match s with
  | EmptyString => true
  | String a s' => P a && all_chars P s'
  end.

Definition printable (a : ascii) : bool := graphic a.

Lemma all_chars_app P (s t : string) :
  all_chars P (s +:+ t) = all_chars P s && all_chars P t.
Proof.
  induction s as [|a s IH]; [reflexivity|].
  rewrite app_cons. simpl. by rewrite IH, andb_assoc.
Qed.

Lemma rstrip_printable_nl (s : string) :
  all_chars printable s = true → rstrip (s +:+ nl) = s.
Proof.
  induction s as [|a s IH]; [reflexivity|].
  rewrite app_cons. cbn [all_chars]. intros [Ha Hs]%andb_true_iff.
  rewrite rstrip_keep by (by apply graphic_lead). by rewrite (IH Hs).
Qed.

Lemma lstrip_printable (s t : string) :
  all_chars printable s = true → s ≠ EmptyString → lstrip (s +:+ t) = s +:+ t.
Proof.
  destruct s as [|a s]; [done|]. intros [Ha _]%andb_true_iff _.
  rewrite app_cons. apply lstrip_stop. by apply graphic_lead.
Qed.

(** Stripping a line of printable characters gives the line without its
    line feed. *)
Lemma strip_line (s : string) : all_chars printable s = true → strip (s +:+ nl) = s.
Proof.
  intros Hs. unfold strip. destruct s as [|a s]; [reflexivity|].
  rewrite lstrip_printable by done. by apply rstrip_printable_nl.
Qed.

Lemma digit_printable (n : nat) : all_chars printable (digit n) = true.
Proof.
  unfold digit. pose proof (Nat.mod_upper_bound n 10) as H.
  destruct (n mod 10) as [|k]; [reflexivity|].
  do 9 (destruct k as [|k]; [reflexivity|]). lia.
Qed.

Lemma show_nat_from_printable (fuel n : nat) (acc : string) :
  all_chars printable acc = true → all_chars printable (show_nat_from fuel n acc) = true.
Proof.
  revert n acc. induction fuel as [|fuel IH]; intros n acc Hacc; [done|].
  simpl. assert (all_chars printable (digit n +:+ acc) = true) as H.
  { by rewrite all_chars_app, digit_printable. }
  destruct (n <? 10); [done | by apply IH].
Qed.

Lemma show_printable (v : semver) : all_chars printable (show v) = true.
Proof.
  unfold show, show_nat. rewrite !all_chars_app.
  by rewrite !show_nat_from_printable.
Qed.

Lemma bump_lt (level : string) (v : semver) :
  level ∈ levels → lt v (bump level v).
Proof.
  unfold levels. rewrite !elem_of_cons.
  intros [->|[->|[->|H]]]; [| | |by apply elem_of_nil in H];
    unfold lt, bump; simpl; lia.
Qed.

Lemma bump_component (level : string) (v : semver) :
  component_incremented level v (bump level v).
Proof. split; [|split]; intros ->; repeat split. Qed.

Section WithShell.
Context {E : Type} (sh : Shell E) (version_of : E → semver).
Hypothesis contract : poetry_contract sh version_of.

Lemma get_current_version_contract (e : Env E) (t : list event) :
  get_current_version sh {| env := e; trace := t |} =
  (Returned (show (version_of (ext e))),
   {| env := e; trace := t ++ [EvRun poetry_short true 0] |}).
Proof.
  destruct contract as [Hshort _]. destruct (Hshort e) as (out & Hrun & Hout).
  unfold get_current_version, bind, run_command, poetry_short. simpl.
  rewrite Hrun. simpl. unfold ret. by rewrite Hout.
Qed.

(** C7.  Under the version tool's contract, [bump_version] at a valid
    level returns the text of a version that is strictly above the
    project's previous version in the precedence order, with the component
    of the requested level one higher; the project is left at that
    version. *)
Theorem bump_version_increases (level : string) (w : world E) :
  level ∈ levels →
  ∃ w',
    bump_version sh level w =
      (Returned (show (bump level (version_of (ext (env w))))), w') ∧
    version_of (ext (env w')) = bump level (version_of (ext (env w))) ∧
    lt (version_of (ext (env w))) (version_of (ext (env w'))) ∧
    component_incremented level (version_of (ext (env w))) (version_of (ext (env w'))).
Proof.
  intros Hl. destruct w as [e t]. simpl.
  destruct contract as [_ Hbump]. destruct (Hbump level e Hl) as (out & e' & Hrun & Hv).
  unfold bump_version. rewrite bool_decide_eq_true_2 by done. simpl.
  unfold bind at 1. rewrite get_current_version_contract.
  unfold bind at 1, run_command. simpl. rewrite Hrun. simpl.
  unfold bind at 1, record, with_env. simpl. rewrite get_current_version_contract.
  unfold bind, print, ret. simpl. rewrite Hv.
  eexists. split; [reflexivity|]. simpl. rewrite Hv. split; [done|].
  split; [by apply bump_lt | apply bump_component].
Qed.

End WithShell.

(** The reference tools keep the contract. *)
Lemma tools_contract : poetry_contract Ref.tools Ref.version.
Proof.
  split.
  - intros e. eexists. split; [reflexivity|]. apply strip_line, show_printable.
  - intros level e. rewrite !elem_of_cons.
    intros [->|[->|[->|H]]]; [| | |by apply elem_of_nil in H];
      by eexists _, _.
Defined.

Lemma bump_version_increases_witness :
  ∃ w',
    bump_version Ref.tools "minor" (start Ref.env0) = (Returned "1.1.0", w') ∧
    Ref.version (ext (env w')) = {| major := 1; minor := 1; patch := 0 |} ∧
    lt (Ref.version Ref.repo0) (Ref.version (ext (env w'))) ∧
    component_incremented "minor" (Ref.version Ref.repo0) (Ref.version (ext (env w'))).
Proof.
  apply (bump_version_increases Ref.tools Ref.version tools_contract "minor" (start Ref.env0)).
  compute_done.
Defined.

End Versioning.

(** ** The order of the workflow *)

Module Workflow.
Import Text World Release Logic Preconditions.

(** What a trace shows through a partial view of its events. *)
Definition shows {B} (view : event → option B) (L : list B) (t : list event) : Prop :=
  omap view t = L.

Definition silent {B} (view : event → option B) (ev : event) : Prop := view ev = None.


Definition prompt_of (ev : event) : option string :=
  match ev with EvInput prompt _ => Some prompt | _ => None end.

Definition commit_cmd (version : string) : string :=
  "git commit -m " +:+ dquote +:+ "Release version " +:+ version +:+ dquote.
Definition tag_cmd (version : string) : string :=
  "git tag -a v" +:+ version +:+ " -m " +:+ dquote +:+ "Version " +:+ version +:+ dquote.

(** The command lines of a complete run, in order: the status check
    unless skipped, the three calls of the version tool, the commit and
    the tag, the two pushes if confirmed, the probe for the GitHub CLI
    and the release if confirmed. *)
Definition checks (skip : bool) : list string := if skip then [] else [git_status].
Definition pushes (push : bool) : list string :=
  if push then ["git push"; "git push --tags"] else [].
Definition releases (release : bool) (version : string) : list string :=
  if release then [release_cmd version] else [].

Definition workflow (skip : bool) (level version : string) (push release : bool)
    : list string :=
  checks skip ++
  [poetry_short; "poetry version " +:+ level; poetry_short;
   "git add pyproject.toml CHANGELOG.md"; commit_cmd version; tag_cmd version] ++
  pushes push ++ ["which gh"] ++ releases release version.


Lemma shows_silent_stable {B} (view : event → option B) (L : list B) :
  stable (silent view) (shows view L).
Proof.
  intros t d Ht Hd. unfold shows in *. rewrite omap_app, Ht.
  assert (omap view d = []) as ->; [|by rewrite app_nil_r].
  induction Hd as [|ev d Hev _ IH]; [done|]. simpl. by rewrite Hev.
Qed.

Lemma shows_snoc {B} (view : event → option B) (L : list B) t ev x :
  view ev = Some x → shows view L t → shows view (L ++ [x]) (t ++ [ev]).
Proof. intros Hev Ht. unfold shows in *. rewrite omap_app, Ht. simpl. by rewrite Hev. Qed.

Section Rules.
Context {E : Type} (sh : Shell E).

Lemma triple_silent {A B} (view : event → option B) (L : list B) (m : Py E A)
    (X : list event → Prop) :
  emits (silent view) m → (∀ t, shows view L t → X t) →
  triple (shows view L) m (λ _, shows view L) (λ _, X).
Proof.
  intros Hm HX. eapply triple_weaken.
  - by apply (emits_triple (silent view) (shows view L)); [apply shows_silent_stable|].
  - done.
  - done.
  - intros x t. apply HX.
Qed.

Lemma triple_post {A} (P : list event → Prop) (m : Py E A)
    (Q Q' : A → list event → Prop) (X : exn → list event → Prop) :
  triple P m Q' X → (∀ a t, Q' a t → Q a t) → triple P m Q X.
Proof. intros Hm HQ. by apply (triple_weaken _ P _ _ Q' _ X). Qed.


Lemma triple_run_shows {B} (view : event → option B) (L : list B) cmd check x
    (X : list event → Prop) :
  view (EvRun cmd check 0) = Some x →
  (∀ rc, view (EvRun cmd check rc) = view (EvRun cmd check 0)) →
  (∀ t, shows view (L ++ [x]) t → X t) →
  triple (shows view L) (run_command sh cmd check)
    (λ _, shows view (L ++ [x])) (λ _, X).
Proof.
  intros Hx Hrc HX. apply triple_run_command.
  - intros t cp Ht _. apply shows_snoc; [by rewrite Hrc | done].
  - intros t rc Ht _ _. apply HX, shows_snoc; [by rewrite Hrc | done].
Qed.

End Rules.

Ltac track v p r :=
  let t := fresh "t" in
  let Ht := fresh "Ht" in
  intros t Ht; exists v, p, r; unfold shows in Ht; rewrite Ht;
  unfold workflow, commit_cmd, tag_cmd; simpl; eexists; reflexivity.


Ltac last_run v p r :=
  eapply triple_post;
  [ apply triple_run_shows; [reflexivity | reflexivity | track v p r]
  | intros ? ? H; exact H ].



Section WithShell.
Context {E : Type} (sh : Shell E).









Ltac seen :=
  let t := fresh "t" in
  let Ht := fresh "Ht" in
  intros t Ht; unfold shows in Ht; rewrite Ht; simpl; eexists; reflexivity.

Ltac quiet_prompt :=
  eapply triple_bind; [apply triple_silent; [emits_go; reflexivity | seen] | intros ?].

Ltac last_prompt :=
  eapply triple_post;
  [ apply triple_silent; [emits_go; reflexivity | seen] | intros ?; seen ].

Lemma triple_input_shows (L : list string) prompt (X : list event → Prop) :
  (∀ t, shows prompt_of (L ++ [prompt]) t → X t) →
  triple (shows prompt_of L) (input prompt : Py E string)
    (λ _, shows prompt_of (L ++ [prompt])) (λ _, X).
Proof.
  intros HX. apply triple_input.
  - intros t line Ht. by apply shows_snoc.
  - intros t Ht. by apply HX, shows_snoc.
Qed.

Ltac ask_step :=
  eapply triple_bind; [apply triple_input_shows; seen | intros ?].

Lemma within_stable {B} (view : event → option B) (F : list B) :
  stable (silent view) (λ t, omap view t `prefix_of` F).
Proof.
  intros t d Ht Hd.
  by rewrite (shows_silent_stable view (omap view t) t d eq_refl Hd).
Qed.

(** X2.  In every run the prompts shown are an initial part of: the pause for
    the changelog edit, the push confirmation, the release confirmation. *)
Theorem prompts_in_order (argv : cmdline) (e : Env E) :
  omap prompt_of (trace (script sh argv (start e)).2)
    `prefix_of` [edit_prompt; push_prompt; release_prompt].
Proof.
  assert (triple (shows prompt_of []) (script sh argv)
            (λ _ t, omap prompt_of t `prefix_of` [edit_prompt; push_prompt; release_prompt])
            (λ _ t, omap prompt_of t `prefix_of` [edit_prompt; push_prompt; release_prompt]))
    as H.
  { unfold script, module_check, main, parse_args, check_git_clean, bump_version,
      get_current_version, update_changelog, create_git_tag, push_to_github,
      create_github_release, sys_exit.
    do 6 quiet_prompt. ask_step. quiet_prompt.
    eapply triple_bind;
      [ask_step; destruct (negb _); (apply triple_silent; [emits_go; reflexivity | seen])
      | intros ?].
    apply (triple_bind _ _ _
             (λ _ t, omap prompt_of t `prefix_of` [edit_prompt; push_prompt; release_prompt])).
    - quiet_prompt. destruct (negb _); [last_prompt|].
      ask_step. destruct (negb _); last_prompt.
    - intros ?. apply (emits_triple (silent prompt_of)); [apply within_stable|].
      emits_go; reflexivity. }
  specialize (H (start e) eq_refl).
  by destruct (script sh argv (start e)) as [[[]|x] w'].
Qed.

End WithShell.
End Workflow.

(** ** What has to happen before what *)

Module Ordering.
Import Text World Release Logic.

(** Exactly two answers count as a yes. *)
Lemma lower_y (s : string) : lower s = "y" ↔ s = "y" ∨ s = "Y".
Proof.
  split; [|by intros [-> | ->]].
  destruct s as [|a [|b s]]; simpl; intros [= H].
  destruct a as [[] [] [] [] [] [] [] []]; cbv in H; try discriminate H; auto.
Qed.

Section Gate.
Context (guarded : string → Prop) (evidence : list event → Prop).
Hypothesis evidence_mono : ∀ t d, evidence t → evidence (t ++ d).

Definition unguarded (ev : event) : Prop :=
  ∀ cmd check rc, ev = EvRun cmd check rc → ¬ guarded cmd.

(** No guarded command so far. *)
Definition closed (t : list event) : Prop := Forall unguarded t.

(** Every guarded command of the trace has the evidence before it. *)
Definition preceded (t : list event) : Prop :=
  ∀ pre cmd check rc post,
    t = pre ++ EvRun cmd check rc :: post → guarded cmd → evidence pre.

Definition opened (t : list event) : Prop := preceded t ∧ evidence t.

Lemma closed_preceded t : closed t → preceded t.
Proof.
  intros Ht pre cmd check rc post -> Hg. unfold closed in Ht.
  rewrite Forall_app, Forall_cons in Ht. destruct Ht as (_ & Hev & _).
  by destruct (Hev cmd check rc).
Qed.

Lemma closed_stable : stable unguarded closed.
Proof. intros t d Ht Hd. by apply Forall_app. Qed.

Lemma preceded_stable : stable unguarded preceded.
Proof.
  intros t d Ht Hd pre cmd check rc post Heq Hg.
  apply app_eq_app in Heq as [l [[Ht' Hpost]|[-> Hd']]].
  - destruct l as [|ev l].
    + simpl in Hpost. subst d.
      rewrite Forall_cons in Hd. destruct Hd as [Hev _]. by destruct (Hev cmd check rc).
    + injection Hpost as <- _. by eapply Ht.
  - rewrite Hd', Forall_app, Forall_cons in Hd. destruct Hd as (_ & Hev & _).
    by destruct (Hev cmd check rc).
Qed.

Lemma opened_stable : stable (λ _, True) opened.
Proof.
  intros t d [Ht He] _. split; [|by apply evidence_mono].
  intros pre cmd check rc post Heq Hg.
  apply app_eq_app in Heq as [l [[Ht' Hpost]|[-> Hd']]].
  - destruct l as [|ev l].
    + rewrite app_nil_r in Ht'. by subst pre.
    + injection Hpost as <- _. by eapply Ht.
  - by apply evidence_mono.
Qed.

Context {E : Type}.

Lemma triple_closed {A} (m : Py E A) :
  emits unguarded m → triple closed m (λ _, closed) (λ _, preceded).
Proof.
  intros Hm. eapply triple_weaken.
  - by apply (emits_triple unguarded closed); [apply closed_stable|].
  - done.
  - done.
  - intros x t. apply closed_preceded.
Qed.

Lemma triple_preceded {A} (m : Py E A) :
  emits unguarded m → triple preceded m (λ _, preceded) (λ _, preceded).
Proof. intros Hm. by apply (emits_triple unguarded preceded); [apply preceded_stable|]. Qed.

Lemma triple_opened {A} (m : Py E A) :
  emits (λ _, True) m → triple opened m (λ _, preceded) (λ _, preceded).
Proof.
  intros Hm. eapply triple_weaken.
  - by apply (emits_triple (λ _, True) opened); [apply opened_stable|].
  - done.
  - by intros a t [? ?].
  - by intros x t [? ?].
Qed.

(** A confirmation: the guarded part runs only on a yes, and the yes,
    with what was known before it, is the evidence. *)
Lemma triple_gate_confirm {A} (prompt : string) (known : list event → Prop)
    (m_no m_yes : Py E A) :
  (∀ t a, known t → a = "y" ∨ a = "Y" →
          evidence (t ++ [EvInput prompt (Some a)])) →
  emits unguarded m_no → emits (λ _, True) m_yes →
  triple (λ t, closed t ∧ known t)
    (confirm <~ input prompt;;
     if negb (bool_decide (lower confirm = "y")) then m_no else m_yes)%py
    (λ _, preceded) (λ _, preceded).
Proof.
  intros Hev Hno Hyes.
  apply (triple_bind _ _ _
           (λ line t, closed t ∧ (lower line = "y" → evidence t))).
  - apply triple_input.
    + intros t line [Hc Hk]. split.
      * apply closed_stable; [done|]. by repeat constructor.
      * intros Hy%lower_y. by apply Hev.
    + intros t [Hc _]. apply closed_preceded, closed_stable; [done|].
      by repeat constructor.
  - intros line. destruct (bool_decide_reflect (lower line = "y")) as [Hy|Hn]; simpl.
    + eapply triple_weaken; [by apply triple_opened | | done | done].
      intros t [Hc He]. split; [by apply closed_preceded | by apply He].
    + eapply triple_weaken; [by apply triple_closed | | | done].
      * by intros t [Hc _].
      * intros a t. apply closed_preceded.
Qed.

Lemma triple_closed_known {A} (known : list event → Prop) (m : Py E A) :
  (∀ t d, known t → known (t ++ d)) → emits unguarded m →
  triple (λ t, closed t ∧ known t) m (λ _ t, closed t ∧ known t) (λ _, preceded).
Proof.
  intros Hmono Hm. eapply triple_weaken.
  - apply (emits_triple unguarded (λ t, closed t ∧ known t)); [|done].
    intros t d [Hc Hk] Hd. split; [by apply closed_stable | by apply Hmono].
  - done.
  - done.
  - intros x t [Hc _]. by apply closed_preceded.
Qed.

End Gate.

(** The three gates of the workflow. *)
Definition committing (cmd : string) : Prop :=
  startswith "git add" cmd = true ∨ startswith "git commit" cmd = true ∨
  startswith "git tag" cmd = true.
Definition pushing (cmd : string) : Prop := cmd = "git push" ∨ cmd = "git push --tags".
Definition releasing (cmd : string) : Prop := startswith "gh release create" cmd = true.

Definition yes (a : string) : Prop := a = "y" ∨ a = "Y".

(** The operator answered the pause for the changelog edit. *)
Definition paused (t : list event) : Prop :=
  ∃ a, EvInput edit_prompt (Some a) ∈ t.

(** The tag command succeeded. *)
Definition tagged (t : list event) : Prop :=
  ∃ cmd, startswith "git tag" cmd = true ∧ EvRun cmd true 0 ∈ t.

(** The probe for the GitHub CLI succeeded. *)
Definition probed (t : list event) : Prop := EvRun "which gh" false 0 ∈ t.

Definition push_confirmed (t : list event) : Prop :=
  tagged t ∧ ∃ a, EvInput push_prompt (Some a) ∈ t ∧ yes a.

Definition release_confirmed (t : list event) : Prop :=
  probed t ∧ ∃ a, EvInput release_prompt (Some a) ∈ t ∧ yes a.

Lemma paused_mono t d : paused t → paused (t ++ d).
Proof. intros [a Ha]. exists a. apply elem_of_app. by left. Qed.

Lemma tagged_mono t d : tagged t → tagged (t ++ d).
Proof. intros (cmd & Hc & Ht). exists cmd. split; [done|]. apply elem_of_app. by left. Qed.

Lemma probed_mono t d : probed t → probed (t ++ d).
Proof. intros Ht. apply elem_of_app. by left. Qed.

Lemma push_confirmed_mono t d : push_confirmed t → push_confirmed (t ++ d).
Proof.
  intros [Ht (a & Ha & Hy)]. split; [by apply tagged_mono|].
  exists a. split; [|done]. apply elem_of_app. by left.
Qed.

Lemma release_confirmed_mono t d : release_confirmed t → release_confirmed (t ++ d).
Proof.
  intros [Ht (a & Ha & Hy)]. split; [by apply probed_mono|].
  exists a. split; [|done]. apply elem_of_app. by left.
Qed.

(** Deciding that an event is no guarded command. *)
Ltac free :=
  let Heq := fresh in
  let Hg := fresh in
  intros ? ? ? Heq;
  first [ discriminate Heq
        | injection Heq as <- _ _; intros Hg; cbv in Hg; intuition discriminate ].

Ltac closed_step guarded evidence :=
  apply (triple_bind _ _ _ (λ _, closed guarded));
  [apply (triple_closed guarded evidence); emits_go; free | intros ?].

Section WithShell.
Context {E : Type} (sh : Shell E).

Lemma script_commit_gate (argv : cmdline) :
  triple (closed committing) (script sh argv)
    (λ _, preceded committing paused) (λ _, preceded committing paused).
Proof.
  unfold script, module_check, main, parse_args, check_git_clean, bump_version,
    get_current_version, update_changelog, sys_exit.
  do 6 (closed_step committing paused).
  apply (triple_bind _ _ _ (λ _, opened committing paused)).
  - apply triple_input.
    + intros t line Ht. split.
      * apply closed_preceded, closed_stable; [done|]. repeat constructor. free.
      * exists line. apply elem_of_app. right. by constructor.
    + intros t Ht. apply closed_preceded, closed_stable; [done|].
      repeat constructor. free.
  - intros ?. apply (triple_opened committing paused paused_mono).
    unfold create_git_tag, push_to_github, create_github_release. emits_go; done.
Qed.

Lemma script_push_gate (argv : cmdline) :
  triple (closed pushing) (script sh argv)
    (λ _, preceded pushing push_confirmed) (λ _, preceded pushing push_confirmed).
Proof.
  unfold script, module_check, main, parse_args, check_git_clean, bump_version,
    get_current_version, update_changelog, sys_exit.
  do 7 (closed_step pushing push_confirmed).
  apply (triple_bind _ _ _ (λ _ t, closed pushing t ∧ tagged t)).
  { unfold create_git_tag. do 2 (closed_step pushing push_confirmed).
    apply (triple_bind _ _ _ (λ _ t, closed pushing t ∧ tagged t)).
    - apply triple_run_command.
      + intros t cp Ht Hrc. split.
        * apply closed_stable; [done|]. repeat constructor. free.
        * eexists. split; [|apply elem_of_app; right; rewrite (Hrc eq_refl); by constructor].
          reflexivity.
      + intros t rc Ht _ _. apply closed_preceded, closed_stable; [done|].
        repeat constructor. free.
    - intros ?. eapply triple_weaken.
      + apply (triple_closed_known pushing push_confirmed tagged _ tagged_mono).
        emits_go. free.
      + done.
      + done.
      + done. }
  intros ?.
  apply (triple_bind _ _ _ (λ _, preceded pushing push_confirmed)).
  - unfold push_to_github.
    apply (triple_gate_confirm pushing push_confirmed push_confirmed_mono push_prompt tagged).
    + intros t ans Ht Ha. split; [by apply tagged_mono|].
      exists ans. split; [|done]. apply elem_of_app. right. by constructor.
    + emits_go. free.
    + emits_go; done.
  - intros ?. apply triple_preceded. unfold create_github_release. emits_go; free.
Qed.

Lemma script_release_gate (argv : cmdline) :
  triple (closed releasing) (script sh argv)
    (λ _, preceded releasing release_confirmed)
    (λ _, preceded releasing release_confirmed).
Proof.
  unfold script, module_check, main, parse_args, check_git_clean, bump_version,
    get_current_version, update_changelog, create_git_tag, push_to_github, sys_exit.
  do 9 (closed_step releasing release_confirmed).
  apply (triple_bind _ _ _ (λ _, preceded releasing release_confirmed)).
  - unfold create_github_release.
    apply (triple_bind _ _ _
             (λ cp t, closed releasing t ∧ (returncode cp = 0%Z → probed t))).
    + apply triple_run_command.
      * intros t cp Ht _. split.
        { apply closed_stable; [done|]. repeat constructor. free. }
        intros Hrc. apply elem_of_app. right. rewrite Hrc. by constructor.
      * intros t rc Ht [=].
    + intros cp. destruct (Z.eqb_spec (returncode cp) 0) as [Hrc|Hrc]; simpl.
      * eapply triple_weaken.
        { apply (triple_gate_confirm releasing release_confirmed release_confirmed_mono
                   release_prompt probed).
          - intros t ans Ht Ha. split; [by apply probed_mono|].
            exists ans. split; [|done]. apply elem_of_app. right. by constructor.
          - emits_go; free.
          - emits_go; done. }
        { intros t [Hc Hp]. split; [done | by apply Hp]. }
        { done. }
        { done. }
      * eapply triple_weaken.
        { apply (triple_closed releasing release_confirmed). emits_go; free. }
        { by intros t [Hc _]. }
        { intros ? t. apply closed_preceded. }
        { done. }
  - intros ?. apply triple_preceded. emits_go; free.
Qed.

(** X3.  In every run, [git add], [git commit] and [git tag] come after an
    answer to the pause for the changelog edit. *)
Theorem commit_after_pause (argv : cmdline) (e : Env E)
    (pre post : list event) (cmd : string) (check : bool) (rc : Z) :
  trace (script sh argv (start e)).2 = pre ++ EvRun cmd check rc :: post →
  committing cmd → paused pre.
Proof.
  intros Heq Hg.
  pose proof (script_commit_gate argv (start e) (Forall_nil_2 _)) as H.
  destruct (script sh argv (start e)) as [[[]|x] w']; by eapply H.
Qed.

(** X4.  In every run, [git push] and [git push --tags] come after a tag
    command that succeeded and after the answer [y] or [Y] to the push
    prompt. *)
Theorem push_after_tag_and_yes (argv : cmdline) (e : Env E)
    (pre post : list event) (cmd : string) (check : bool) (rc : Z) :
  trace (script sh argv (start e)).2 = pre ++ EvRun cmd check rc :: post →
  pushing cmd → push_confirmed pre.
Proof.
  intros Heq Hg.
  pose proof (script_push_gate argv (start e) (Forall_nil_2 _)) as H.
  destruct (script sh argv (start e)) as [[[]|x] w']; by eapply H.
Qed.

(** X5.  In every run, [gh release create] comes after a probe [which gh] that
    exited with status 0 and after the answer [y] or [Y] to the release
    prompt. *)
Theorem release_after_probe_and_yes (argv : cmdline) (e : Env E)
    (pre post : list event) (cmd : string) (check : bool) (rc : Z) :
  trace (script sh argv (start e)).2 = pre ++ EvRun cmd check rc :: post →
  releasing cmd → release_confirmed pre.
Proof.
  intros Heq Hg.
  pose proof (script_release_gate argv (start e) (Forall_nil_2 _)) as H.
  destruct (script sh argv (start e)) as [[[]|x] w']; by eapply H.
Qed.

End WithShell.

(** *** Concrete runs *)

(** The operator presses Enter and accepts both prompts. *)
Definition env_accepting : Env Ref.Repo := Ref.with_stdin [EmptyString; "y"; "Y"] Ref.env0.

Definition accepted_trace : list event :=
  trace (script Ref.shell Ref.argv_minor (start env_accepting)).2.

Lemma commit_after_pause_witness : paused (firstn 13 accepted_trace).
Proof.
  apply (commit_after_pause Ref.shell Ref.argv_minor env_accepting
           (firstn 13 accepted_trace) (skipn 14 accepted_trace) Ref.commit_cmd true 0).
  - vm_compute. reflexivity.
  - right. left. vm_compute. reflexivity.
Defined.

Lemma push_after_tag_and_yes_witness : push_confirmed (firstn 17 accepted_trace).
Proof.
  apply (push_after_tag_and_yes Ref.shell Ref.argv_minor env_accepting
           (firstn 17 accepted_trace) (skipn 18 accepted_trace) "git push" true 0).
  - vm_compute. reflexivity.
  - by left.
Defined.

Lemma release_after_probe_and_yes_witness : release_confirmed (firstn 24 accepted_trace).
Proof.
  apply (release_after_probe_and_yes Ref.shell Ref.argv_minor env_accepting
           (firstn 24 accepted_trace) (skipn 25 accepted_trace) (release_cmd "1.1.0") true 0).
  - vm_compute. reflexivity.
  - vm_compute. reflexivity.
Defined.

End Ordering.

(** ** Files written and exits *)

Module Effects.
Import Text World Release Logic Preconditions.

(** What the script may write: the changelog, either the default text or
    a text with a release section in it. *)
Definition changelog_write (ev : event) : Prop :=
  ∀ p c, ev = EvWrite p c →
    p = changelog_path ∧
    (c = default_changelog ∨
     ∃ pre suf version date, c = pre +:+ new_section version date +:+ suf).


Section WithShell.
Context {E : Type} (sh : Shell E).

Lemma script_writes (argv : cmdline) : emits changelog_write (script sh argv).
Proof.
  unfold script, main, module_check, parse_args, check_git_clean, bump_version,
    get_current_version, update_changelog, create_git_tag, push_to_github,
    create_github_release, sys_exit.
  emits_go.
  all: intros ? ? Heq;
    first [ discriminate Heq
          | injection Heq as <- <-; split; [done|];
            first [by left | right; by eexists _, _, _, _] ].
Qed.

(** X6.  The script writes no file but [CHANGELOG.md], and what it writes
    there is the default changelog or a text holding a release section. *)
Theorem only_changelog_written (argv : cmdline) (e : Env E) (p c : string) :
  EvWrite p c ∈ trace (script sh argv (start e)).2 →
  p = changelog_path ∧
  (c = default_changelog ∨
   ∃ pre suf version date, c = pre +:+ new_section version date +:+ suf).
Proof.
  intros Hin. destruct (script_writes argv (start e)) as (d & Hd & Hall).
  rewrite Hd in Hin. simpl in Hin. rewrite Forall_forall in Hall.
  by apply (Hall _ Hin).
Qed.


Opaque update_changelog.


Transparent update_changelog.




End WithShell.

(** *** Concrete runs *)

Lemma only_changelog_written_witness :
  changelog_path = changelog_path ∧
  (default_changelog = default_changelog ∨
   ∃ pre suf version date, default_changelog = pre +:+ new_section version date +:+ suf).
Proof.
  apply (only_changelog_written Ref.shell Ref.argv_minor Ref.env0
           changelog_path default_changelog).
  compute_done.
Defined.


End Effects.

(** ** The anchor of the changelog *)

Module Anchor.
Import Text TextFacts World Release ReFacts Re.

Lemma startswith_length (p s : string) :
  startswith p s = true → String.length p ≤ String.length s.
Proof. intros [r ->]%startswith_inv. rewrite length_app. lia. Qed.

Lemma take_app_add (p s : string) (k : nat) :
  take (String.length p + k) (p +:+ s) = p +:+ take k s.
Proof. induction p as [|a p IH]; [reflexivity|]. rewrite app_cons. simpl. by rewrite IH. Qed.

Lemma drop_app_le (n : nat) (p s : string) :
  n ≤ String.length p → drop n (p +:+ s) = drop n p +:+ s.
Proof.
  revert p. induction n as [|n IH]; intros p Hn; [by destruct p|].
  destruct p as [|a p]; simpl in Hn; [lia|]. rewrite app_cons. simpl. apply IH. lia.
Qed.

(** Whether [s] starts with [p] is decided by the first characters of [s]. *)
Lemma startswith_take_app (p s r : string) (n : nat) :
  String.length p ≤ n → n ≤ String.length s →
  startswith p (take n s +:+ r) = startswith p s.
Proof.
  revert s n. induction p as [|a p IH]; intros s n Hp Hn; [reflexivity|].
  destruct s as [|b s]; simpl in *; [lia|].
  destruct n as [|n]; [lia|]. simpl. rewrite IH by lia. reflexivity.
Qed.

Lemma lazy_then_hit (lit s : string) :
  startswith lit s = true → lazy_then lit s = Some (String.length lit).
Proof. intros H. destruct s; simpl; by rewrite H. Qed.

Lemma lazy_then_bounds (lit s : string) (k : nat) :
  lazy_then lit s = Some k → String.length lit ≤ k ≤ String.length s.
Proof.
  revert k. induction s as [|a s IH]; intros k; simpl.
  - destruct (startswith lit EmptyString) eqn:Hp; [|discriminate].
    intros [= <-]. apply startswith_length in Hp. simpl in *. lia.
  - destruct (startswith lit (String a s)) eqn:Hp.
    + intros [= <-]. apply startswith_length in Hp. simpl in *. lia.
    + destruct (lazy_then lit s) as [k'|]; [|discriminate].
      intros [= <-]. specialize (IH k' eq_refl). simpl. lia.
Qed.

(** The lazy scan never looks past the end of what it finds. *)
Lemma lazy_then_take (lit s r : string) (k : nat) :
  lazy_then lit s = Some k → lazy_then lit (take k s +:+ r) = Some k.
Proof.
  revert k. induction s as [|a s IH]; intros k; simpl.
  - destruct (startswith lit EmptyString) eqn:Hp; [|discriminate].
    intros [= <-]. destruct lit; [|discriminate]. simpl. by apply lazy_then_hit.
  - destruct (startswith lit (String a s)) eqn:Hp.
    + intros [= <-]. apply lazy_then_hit.
      rewrite startswith_take_app; [done | done |].
      by apply startswith_length in Hp.
    + destruct (lazy_then lit s) as [k'|] eqn:Hk; [|discriminate].
      intros [= <-]. pose proof (lazy_then_bounds _ _ _ Hk) as Hb.
      cbn [take]. rewrite app_cons. simpl.
      assert (startswith lit (String a (take k' s +:+ r)) = false) as ->.
      { rewrite <- Hp. apply (startswith_take_app lit (String a s) r (S k')); simpl; lia. }
      by rewrite (IH k' eq_refl).
Qed.

Lemma match_here_bounds (s : string) (e : nat) :
  match_here s = Some e → String.length title ≤ e ≤ String.length s.
Proof.
  unfold match_here. destruct (startswith title s) eqn:Hp; [|discriminate].
  apply startswith_inv in Hp as [s0 ->]. rewrite drop_app_length.
  destruct (lazy_then blank s0) as [k|] eqn:Hk; [|discriminate].
  intros [= <-]. apply lazy_then_bounds in Hk. rewrite length_app. simpl. lia.
Qed.

Lemma match_here_take (s r : string) (e : nat) :
  match_here s = Some e → match_here (take e s +:+ r) = Some e.
Proof.
  unfold match_here. destruct (startswith title s) eqn:Hp; [|discriminate].
  apply startswith_inv in Hp as [s0 ->]. rewrite drop_app_length.
  destruct (lazy_then blank s0) as [k|] eqn:Hk; [|discriminate].
  intros [= <-].
  change (take _ (title +:+ s0)) with (take (String.length title + k) (title +:+ s0)).
  rewrite take_app_add, app_assoc, startswith_app, drop_app_length.
  by rewrite (lazy_then_take _ _ _ _ Hk).
Qed.

Lemma search_hit (s : string) (e : nat) : match_here s = Some e → search s = Some (0, e).
Proof. intros H. destruct s; [by vm_compute in H|]. simpl. by rewrite H. Qed.

Lemma search_bounds (s : string) (b e : nat) :
  search s = Some (b, e) → String.length title ≤ e ≤ String.length s.
Proof.
  intros [Hm _]%search_Some. destruct Hm as (pre & mid & suf & -> & <- & ->).
  rewrite !length_app. lia.
Qed.

(** A failed attempt at one start stays failed when the text after a
    later match is replaced. *)
Lemma match_here_None_take (a : ascii) (s r : string) (b e : nat) :
  match_here (String a s) = None → search s = Some (b, e) →
  match_here (String a (take e s +:+ r)) = None.
Proof.
  intros Hnone Hs. pose proof (search_bounds _ _ _ Hs) as Hb.
  unfold match_here in *.
  assert (startswith title (String a (take e s +:+ r)) = startswith title (String a s))
    as ->.
  { apply (startswith_take_app title (String a s) r (S e)); simpl in *; lia. }
  destruct (startswith title (String a s)) eqn:Hp; [|done].
  destruct (lazy_then blank (drop (String.length title) (String a s))) as [k|] eqn:Hk;
    [discriminate|].
  exfalso. apply search_Some in Hs as [(pre & mid & suf & -> & Hl & ->) _].
  apply (lazy_then_None _ _ Hk
           (String.length (drop (String.length title) (String a (pre +:+ title +:+ mid))))).
  exists (drop (String.length title) (String a (pre +:+ title +:+ mid))), suf.
  split; [|done].
  rewrite <- drop_app_le by (simpl; rewrite !length_app; simpl; lia).
  rewrite app_cons. by rewrite !app_assoc.
Qed.

(** [re.search] never looks past the end of the match it returns. *)
Lemma search_take (s r : string) (b e : nat) :
  search s = Some (b, e) → search (take e s +:+ r) = Some (b, e).
Proof.
  revert b e. induction s as [|a s IH]; intros b e; [discriminate|]. simpl.
  destruct (match_here (String a s)) as [e0|] eqn:Hm.
  - intros [= <- <-]. by apply search_hit, match_here_take.
  - destruct (search s) as [[b0 e0]|] eqn:Hs; [|discriminate].
    intros [= <- <-]. cbn [take fst snd]. rewrite app_cons. simpl.
    rewrite (match_here_None_take _ _ _ _ _ Hm Hs).
    by rewrite (IH b0 e0 eq_refl).
Qed.

Lemma first_match_search (s : string) (b e : nat) :
  first_match s b e → search s = Some (b, e).
Proof.
  intros [Hm Hmin].
  destruct (search_matches s (ex_intro _ b (ex_intro _ e Hm))) as (b' & e' & Hs & Hm' & Hmin').
  specialize (Hmin _ _ Hm'). specialize (Hmin' _ _ Hm).
  rewrite Hs. f_equal. f_equal; lia.
Qed.

Section Any.
Context {E : Type}.

Lemma no_cr_digit (n : nat) : no_cr (digit n) = true.
Proof.
  unfold digit. pose proof (Nat.mod_upper_bound n 10) as H.
  destruct (n mod 10) as [|k]; [reflexivity|].
  do 9 (destruct k as [|k]; [reflexivity|]). lia.
Qed.

Lemma no_cr_strftime (d : datetime) : no_cr (strftime_Ymd d) = true.
Proof.
  unfold strftime_Ymd, pad4, pad2. rewrite !no_cr_app, !no_cr_digit. reflexivity.
Qed.

(** A section made for a version without carriage returns has none. *)
Lemma no_cr_new_section (version : string) (d : datetime) :
  no_cr version = true → no_cr (new_section version (strftime_Ymd d)) = true.
Proof.
  intros Hv. unfold new_section. rewrite !no_cr_app, Hv, no_cr_strftime. reflexivity.
Qed.

(** X8.  Where the section goes is decided by the text up to the anchor
    alone: with the first match of the header pattern ending at [pos] in
    one content, a changelog whose text agrees with it up to [pos] and
    goes on in any other way gets its section at [pos] too. *)
Theorem anchor_ignores_tail (version content tail raw : string) (b pos : nat) (w : world E) :
  first_match content b pos →
  files (env w) !! changelog_path = Some (File raw) →
  universal_newlines raw = take pos content +:+ tail →
  ∃ w', update_changelog version w = (Returned true, w') ∧
        files (env w') !! changelog_path =
          Some (File (take pos content +:+
                      new_section version (Changelog.today w) +:+ tail)).
Proof.
  intros Hfirst Hf Hraw.
  pose proof (first_match_le_length _ _ _ (proj1 Hfirst)) as Hle.
  apply first_match_search in Hfirst.
  rewrite (Changelog.update_changelog_file _ _ _ _ Hf Hraw).
  rewrite (search_take _ tail _ _ Hfirst). eexists. split; [reflexivity|].
  simpl. rewrite lookup_insert_eq.
  by rewrite take_take_app, drop_take_app by lia.
Qed.

(** X9.  Two releases in a row: the second section is put at the same anchor,
    above the first, and the text around them is the original.  ([below]
    is the first section and the original suffix as the second call reads
    them back: themselves, when the first version holds no carriage
    return.) *)
Theorem releases_stack (v1 v2 raw : string) (w : world E) :
  files (env w) !! changelog_path = Some (File raw) →
  (∃ b e, is_match (universal_newlines raw) b e) →
  ∃ pre suf below w1 w2,
    universal_newlines raw = pre +:+ suf ∧
    update_changelog v1 w = (Returned true, w1) ∧
    update_changelog v2 w1 = (Returned true, w2) ∧
    below = universal_newlines (new_section v1 (Changelog.today w) +:+ suf) ∧
    files (env w2) !! changelog_path =
      Some (File (pre +:+ new_section v2 (Changelog.today w) +:+ below)) ∧
    (no_cr v1 = true → below = new_section v1 (Changelog.today w) +:+ suf).
Proof.
  intros Hf Hm. set (content := universal_newlines raw) in *.
  destruct (Changelog.update_changelog_inserts v1 raw content w Hf eq_refl Hm)
    as (b & pos & w1 & Hfirst & Hrun & Hfiles & _ & Hclock & _).
  pose proof (first_match_le_length _ _ _ (proj1 Hfirst)) as Hle.
  apply first_match_search in Hfirst.
  assert (no_cr (take pos content) = true ∧ no_cr (drop pos content) = true) as [Hpre Hsuf].
  { apply andb_true_iff. rewrite <- no_cr_app, take_drop. apply universal_newlines_no_cr. }
  exists (take pos content), (drop pos content),
    (universal_newlines (new_section v1 (Changelog.today w) +:+ drop pos content)), w1.
  assert (files (env w1) !! changelog_path =
            Some (File (take pos content +:+
                        new_section v1 (Changelog.today w) +:+ drop pos content))) as Hf1.
  { by rewrite Hfiles, lookup_insert_eq. }
  eexists. split; [by rewrite take_drop|]. split; [done|].
  rewrite (Changelog.update_changelog_file _ _ _ _ Hf1 (universal_newlines_app _ _ Hpre)).
  rewrite (search_take _ _ _ _ Hfirst). split; [reflexivity|]. split; [done|]. split.
  - simpl. rewrite lookup_insert_eq.
    rewrite take_take_app, drop_take_app by lia.
    unfold Changelog.today. by rewrite Hclock.
  - intros Hv. apply universal_newlines_id. rewrite no_cr_app, Hsuf.
    unfold Changelog.today. by rewrite no_cr_new_section.
Qed.

End Any.

(** *** Concrete runs *)

Lemma old_changelog_first_match : first_match Ref.old_changelog 6 33.
Proof. by apply search_Some. Defined.

Definition env_other_tail : Env Ref.Repo :=
  Ref.with_files
    (<["CHANGELOG.md" := File (take 33 Ref.old_changelog +:+ "Something else.")]>
       (files Ref.env0)) Ref.env0.

Lemma anchor_ignores_tail_witness :
  ∃ w', update_changelog "1.0.1" (start env_other_tail) = (Returned true, w') ∧
        files (env w') !! changelog_path =
          Some (File (take 33 Ref.old_changelog +:+
                      new_section "1.0.1" "2026-03-07" +:+ "Something else.")).
Proof.
  apply (anchor_ignores_tail "1.0.1" Ref.old_changelog "Something else."
           (take 33 Ref.old_changelog +:+ "Something else.") 6 33
           (start env_other_tail)).
  - exact old_changelog_first_match.
  - compute_done.
  - reflexivity.
Defined.

Lemma releases_stack_witness :
  ∃ pre suf below w1 w2,
    Ref.old_changelog = pre +:+ suf ∧
    update_changelog "1.0.1" (start Ref.env_with_changelog) = (Returned true, w1) ∧
    update_changelog "1.0.2" w1 = (Returned true, w2) ∧
    below = universal_newlines (new_section "1.0.1" "2026-03-07" +:+ suf) ∧
    files (env w2) !! changelog_path =
      Some (File (pre +:+ new_section "1.0.2" "2026-03-07" +:+ below)) ∧
    (no_cr "1.0.1" = true → below = new_section "1.0.1" "2026-03-07" +:+ suf).
Proof.
  apply (releases_stack "1.0.1" "1.0.2" Ref.old_changelog (start Ref.env_with_changelog)).
  - compute_done.
  - exists 6, 33. exact (proj1 old_changelog_first_match).
Defined.

End Anchor.

(** ** The version string *)

Module Trimmed.
Import Text TextFacts World Release Logic.

(** [ws] is one whitespace character. *)
Definition space_char (ws : string) : Prop :=
  ws ≠ EmptyString ∧ lead ws = String.length ws.

(** No whitespace character at the start, resp. at the end. *)
Definition clean_start (s : string) : Prop := lead s = 0.
Definition clean_end (s : string) : Prop := ∀ p ws, s = p +:+ ws → ¬ space_char ws.

Lemma app_eq_empty (p s : string) : EmptyString = p +:+ s → s = EmptyString.
Proof. by destruct p. Qed.

Lemma rstrip_clean_end (s : string) : clean_end (rstrip s).
Proof.
  assert (∀ n s, String.length s ≤ n → clean_end (rstrip s)) as H.
  { clear s. induction n as [|n IH]; intros [|a s] Hn; simpl in Hn; try lia.
    { intros p ws Heq%app_eq_empty [Hne _]. done. }
    { intros p ws Heq%app_eq_empty [Hne _]. done. }
    intros p ws Heq [Hne Hws].
    destruct (lead (String a s)) as [|k] eqn:Hl.
    - rewrite rstrip_keep in Heq by done.
      destruct (rstrip_prefix s) as [t Ht].
      destruct p as [|a' p].
      + rewrite app_nil_l in Heq. subst ws.
        rewrite Ht in Hl. apply lead_cons_prefix in Hl.
        rewrite Hl in Hws. simpl in Hws. lia.
      + rewrite app_cons in Heq. injection Heq as _ Heq.
        apply (IH s ltac:(lia) p ws Heq). by split.
    - pose proof (lead_cases (String a s)) as Hc.
      pose proof (lead_take (String a s)) as Htake.
      rewrite rstrip_skip in Heq by lia. rewrite Hl in Hc, Heq, Htake.
      destruct k as [|[|[|k]]]; [| | |done].
      + destruct Hc as (a' & r & [= <- <-] & Ha). cbn [take drop] in *.
        destruct (rstrip s) as [|c R] eqn:HR.
        { apply app_eq_empty in Heq. done. }
        unfold keep_space in Heq. rewrite app_cons, app_nil_l in Heq.
        destruct p as [|a' p].
        * rewrite app_nil_l in Heq. subst ws.
          specialize (Htake (String c R) ltac:(lia)).
          rewrite app_cons, app_nil_l in Htake.
          rewrite Htake in Hws. simpl in Hws. lia.
        * rewrite app_cons in Heq. injection Heq as _ Heq.
          apply (IH s ltac:(lia) p ws); [by rewrite HR | by split].
      + destruct Hc as (a' & b & r & [= <- ->] & Hab). cbn [take drop] in *.
        simpl in Hn.
        destruct (rstrip r) as [|c R] eqn:HR.
        { apply app_eq_empty in Heq. done. }
        unfold keep_space in Heq. rewrite !app_cons, app_nil_l in Heq.
        destruct p as [|a' [|b' p]].
        * rewrite app_nil_l in Heq. subst ws.
          specialize (Htake (String c R) ltac:(lia)).
          rewrite !app_cons, app_nil_l in Htake.
          rewrite Htake in Hws. simpl in Hws. lia.
        * rewrite app_cons, app_nil_l in Heq. injection Heq as _ Heq. subst ws.
          rewrite continuation_lead in Hws by (by eapply isspace2_continuation).
          simpl in Hws. lia.
        * rewrite !app_cons in Heq. injection Heq as _ _ Heq.
          apply (IH r ltac:(lia) p ws); [by rewrite HR | by split].
      + destruct Hc as (a' & b & c0 & r & [= <- ->] & Habc). cbn [take drop] in *.
        simpl in Hn.
        destruct (isspace3_continuation _ _ _ Habc) as [Hb Hc0].
        destruct (rstrip r) as [|c R] eqn:HR.
        { apply app_eq_empty in Heq. done. }
        unfold keep_space in Heq. rewrite !app_cons, app_nil_l in Heq.
        destruct p as [|a' [|b' [|c' p]]].
        * rewrite app_nil_l in Heq. subst ws.
          specialize (Htake (String c R) ltac:(lia)).
          rewrite !app_cons, app_nil_l in Htake.
          rewrite Htake in Hws. simpl in Hws. lia.
        * rewrite app_cons, app_nil_l in Heq. injection Heq as _ Heq. subst ws.
          rewrite continuation_lead in Hws by done. simpl in Hws. lia.
        * rewrite !app_cons, app_nil_l in Heq. injection Heq as _ _ Heq. subst ws.
          rewrite continuation_lead in Hws by done. simpl in Hws. lia.
        * rewrite !app_cons in Heq. injection Heq as _ _ _ Heq.
          apply (IH r ltac:(lia) p ws); [by rewrite HR | by split]. }
  by apply (H (String.length s)).
Qed.

(** Without whitespace characters around it, a text has no ASCII
    whitespace at either end. *)
Lemma clean_start_ascii (s : string) (a : ascii) (r : string) :
  clean_start s → s = String a r → isspace a = false.
Proof.
  unfold clean_start. intros Hs ->. cbn [lead] in Hs. by destruct (isspace a).
Qed.

Lemma clean_end_ascii (s p : string) (a : ascii) :
  clean_end s → s = p +:+ String a EmptyString → isspace a = false.
Proof.
  intros Hs Heq. destruct (isspace a) eqn:Ha; [|done].
  destruct (Hs _ _ Heq). split; [done|]. cbn [lead]. by rewrite Ha.
Qed.

(** What [strip] returns is stripped: stripping it again changes
    nothing, and it has no whitespace character at either end. *)
Lemma strip_stripped (s : string) :
  strip (strip s) = strip s ∧ clean_start (strip s) ∧ clean_end (strip s).
Proof.
  unfold strip. assert (clean_start (rstrip (lstrip s))) as Hstart.
  { apply lead_rstrip, lead_lstrip. }
  split; [|split; [done | apply rstrip_clean_end]].
  by rewrite (lstrip_stop _ Hstart), rstrip_idem.
Qed.

Definition trimmed (v : string) : Prop := strip v = v ∧ clean_start v ∧ clean_end v.

Section WithShell.
Context {E : Type} (sh : Shell E).

Lemma get_current_version_trimmed :
  triple (λ _, True) (get_current_version sh) (λ v _, trimmed v) (λ _ _, True).
Proof.
  unfold get_current_version.
  apply (triple_bind _ _ _ (λ _ _, True)).
  - by apply triple_run_command.
  - intros cp. apply triple_ret. intros t _. apply strip_stripped.
Qed.

(** X10.  Whatever the version tool prints, the version [bump_version] returns
    (the one that names the commit, the tag and the release) carries no
    whitespace at either end. *)
Theorem bump_version_trimmed (level version : string) (w w' : world E) :
  bump_version sh level w = (Returned version, w') →
  strip version = version ∧ clean_start version ∧ clean_end version.
Proof.
  intros Hrun.
  assert (triple (λ _, True) (bump_version sh level) (λ v _, trimmed v) (λ _ _, True)) as H.
  { unfold bump_version. apply triple_if; [by apply triple_raise|].
    apply (triple_bind _ _ _ (λ _ _, True)).
    { eapply triple_weaken; [apply get_current_version_trimmed | done..]. }
    intros cur. apply (triple_bind _ _ _ (λ _ _, True)).
    { by apply triple_run_command. }
    intros _. apply (triple_bind _ _ _ (λ v _, trimmed v)).
    { apply get_current_version_trimmed. }
    intros v. apply (triple_bind _ _ _ (λ _ _, trimmed v)).
    { by apply triple_print. }
    intros _. by apply triple_ret. }
  specialize (H w I). by rewrite Hrun in H.
Qed.

End WithShell.

(** *** Concrete runs *)

(** A version tool that pads what it prints. *)
Definition padding_tools : Shell Ref.Repo := λ cmd e,
  if bool_decide (cmd = poetry_short)
  then (Ref.completed 0 ("  1.2.3 " +:+ nl), e)
  else Ref.tools cmd e.

Lemma bump_version_trimmed_witness :
  strip "1.2.3" = "1.2.3" ∧ clean_start "1.2.3" ∧ clean_end "1.2.3".
Proof.
  apply (bump_version_trimmed padding_tools "patch" "1.2.3" (start Ref.env0)
           (bump_version padding_tools "patch" (start Ref.env0)).2).
  vm_compute. reflexivity.
Defined.

End Trimmed.
